(** * call_throttle.decorators: the [throttle] decorator factory

    A shallow embedding of [src/call_throttle/decorators.py].

    The Python module defines one public function, [throttle], which returns
    a [decorator]; the decorator looks at the function it is given, builds a
    throttle object and a lock, and returns a [wrapper] closure.  The
    [Throttle] and [AsyncThrottle] classes it imports live in
    [call_throttle/throttle.py]; here their two methods are parameters of
    the embedding, and one instance of them is written down from the
    specification's description of the admission algorithm.

    Conventions.
    - Python objects with identity (throttle objects, locks) live in a store
      indexed by locations; a closure captures locations, not values.
    - A Python call either returns or raises: [outcome].  A computation of
      the sequential semantics that never comes back (a task waiting on an
      [asyncio.Lock] nobody will release, an admission loop out of fuel)
      has no result: [None].
    - Time is a count of clock ticks in [Z]; a [datetime.timedelta] is a
      count of ticks as well. *)

From stdpp Require Import gmap strings list.
From Stdlib Require Import ZArith Lia.

Set Default Proof Using "Type".

(** ** Exceptions and outcomes *)

Inductive exn : Type :=
| ThrottleException
| ConfigurationError
| CancelledError
| RuntimeError
| OtherError (tag : string).

Inductive outcome (A : Type) : Type :=
| Return (a : A)
| Raise (e : exn).
Arguments Return {A} a.
Arguments Raise {A} e.

(** ** Objects of the store *)

Definition loc := nat.

(** The two classes imported from [.throttle]. *)
Inductive throttle_class : Type := ThrottleCls | AsyncThrottleCls.

(** Modelled from the spec: the instance state of a throttle object, absent
    from the sources at hand (section 3: ThrottleConfiguration and
    CallHistory).  [calls] is a Python [int], [period] a duration in clock
    ticks, the history holds the timestamps of accepted calls, oldest
    first. *)
Record ThrottleConfiguration : Type := {
  calls : Z;
  period : Z;
  raise_on_throttle : bool
}.

Record throttle_obj : Type := {
  thr_cfg : ThrottleConfiguration;
  thr_history : list Z
}.

(** [threading.RLock()] is re-entrant: it counts how often its owner holds
    it.  [asyncio.Lock()] is a plain flag.  The sequential semantics has a
    single caller, so the owner of an [RLock] is left implicit. *)
Inductive lock_obj : Type :=
| RLock (count : nat)
| AsyncLock (locked : bool).

(** What a method of a throttle object can see besides [self]: the
    monotonic clock, and whether cancellation of the running task has been
    requested (the request is delivered at the task's next suspension). *)
Record clock : Type := {
  now : Z;
  cancel_requested : bool
}.

(** Signatures of the two methods of [Throttle] / [AsyncThrottle]. *)
Definition ctor : Type := Z -> Z -> bool -> outcome throttle_obj.
Definition method : Type :=
  throttle_obj -> clock -> option (outcome unit * throttle_obj * clock).

(** ** Functions and closures *)

(** The attributes [functools.wraps] copies (WRAPPER_ASSIGNMENTS). *)
Record metadata : Type := {
  __module__ : string;
  __name__ : string;
  __qualname__ : string;
  __doc__ : option string
}.

Inductive wrapper_code : Type :=
| SyncWrapper    (* def wrapper, lines 56-61 *)
| AsyncWrapper.  (* async def wrapper, lines 44-49 *)

Section Decorators.

(** Arguments (positional and keyword, as one value) and results of
    guarded operations, and the part of the world a guarded operation can
    read and write.  The throttle and the lock are local variables of
    [decorator]: a guarded operation has no access to them. *)
Context {Args Res W : Type}.

(** A callable handed to the decorator. *)
Record function : Type := {
  fn_meta : metadata;
  fn_iscoroutine : bool;               (* asyncio.iscoroutinefunction *)
  fn_body : Args -> W -> outcome Res * W
}.

(** The function object built by one of the two [def wrapper] statements:
    its code, its free variables [func], [thr] and [lock], its own
    attributes and the [__wrapped__] attribute [functools.wraps] sets. *)
Record closure : Type := {
  cl_code : wrapper_code;
  cl_func : function;
  cl_thr : loc;
  cl_lock : loc;
  cl_meta : metadata;
  cl_wrapped : option function
}.

Inductive event : Type :=
| EvAcquire (l : loc)
| EvRelease (l : loc)
| EvThrCall (t : loc) (r : outcome unit)
| EvInvoke (f : function) (a : Args).

Record state : Type := {
  clk : clock;
  thrs : gmap loc (throttle_class * throttle_obj);
  locks : gmap loc lock_obj;
  world : W;
  trace : list event
}.

Definition set_clk (c : clock) (s : state) : state :=
  {| clk := c; thrs := thrs s; locks := locks s; world := world s; trace := trace s |}.
Definition set_thrs (m : gmap loc (throttle_class * throttle_obj)) (s : state) : state :=
  {| clk := clk s; thrs := m; locks := locks s; world := world s; trace := trace s |}.
Definition set_locks (m : gmap loc lock_obj) (s : state) : state :=
  {| clk := clk s; thrs := thrs s; locks := m; world := world s; trace := trace s |}.
Definition set_world (w : W) (s : state) : state :=
  {| clk := clk s; thrs := thrs s; locks := locks s; world := w; trace := trace s |}.
Definition log (e : event) (s : state) : state :=
  {| clk := clk s; thrs := thrs s; locks := locks s; world := world s;
     trace := trace s ++ [e] |}.

(** ** The monad of sequential Python computations *)

Definition M (A : Type) : Type := state -> option (outcome A * state).

Definition ret {A} (a : A) : M A := fun s => Some (Return a, s).

Definition bind {A B} (m : M A) (k : A -> M B) : M B := fun s =>
  match m s with
  | Some (Return a, s') => k a s'
  | Some (Raise e, s') => Some (Raise e, s')
  | None => None
  end.

(** [try: body finally: fin], as the [with] statement needs it: [fin]
    runs whatever [body] did; an exception of [fin] replaces the pending
    outcome. *)
Definition try_finally {A} (body : M A) (fin : M unit) : M A := fun s =>
  match body s with
  | Some (r, s') =>
      match fin s' with
      | Some (Return _, s'') => Some (r, s'')
      | Some (Raise e, s'') => Some (Raise e, s'')
      | None => None
      end
  | None => None
  end.

Notation "x <- m ;; k" := (bind m (fun x => k))
  (at level 100, m at next level, right associativity).
Notation "m ;;; k" := (bind m (fun _ => k))
  (at level 100, right associativity).

(** ** Locks *)

Definition threading_RLock : M loc := fun s =>
  let l := fresh (dom (locks s)) in
  Some (Return l, set_locks (<[l := RLock 0]> (locks s)) s).

Definition asyncio_Lock : M loc := fun s =>
  let l := fresh (dom (locks s)) in
  Some (Return l, set_locks (<[l := AsyncLock false]> (locks s)) s).

(** [lock.acquire()].  The single caller of the sequential semantics
    re-enters an [RLock] freely and waits for ever on a held
    [asyncio.Lock]. *)
Definition acquire (l : loc) : M unit := fun s =>
  match locks s !! l with
  | Some (RLock n) =>
      Some (Return tt, log (EvAcquire l) (set_locks (<[l := RLock (S n)]> (locks s)) s))
  | Some (AsyncLock false) =>
      Some (Return tt, log (EvAcquire l) (set_locks (<[l := AsyncLock true]> (locks s)) s))
  | Some (AsyncLock true) => None
  | None => None
  end.

(** [lock.release()]; releasing a lock that is not held is a
    [RuntimeError]. *)
Definition release (l : loc) : M unit := fun s =>
  match locks s !! l with
  | Some (RLock (S n)) =>
      Some (Return tt, log (EvRelease l) (set_locks (<[l := RLock n]> (locks s)) s))
  | Some (AsyncLock true) =>
      Some (Return tt, log (EvRelease l) (set_locks (<[l := AsyncLock false]> (locks s)) s))
  | Some (RLock O) | Some (AsyncLock false) => Some (Raise RuntimeError, s)
  | None => None
  end.

(** [with lock: body] and [async with lock: body]: [__enter__] acquires,
    [__exit__] releases and returns a false value, so an exception of the
    body goes on to the caller after the release. *)
Definition with_ {A} (l : loc) (body : M A) : M A :=
  acquire l ;;; try_finally body (release l).

(** [await e] in the sequential semantics: the awaited coroutine runs to
    its end before the task continues. *)
Definition await {A} (m : M A) : M A := m.

(** ** Throttle objects *)

Variables Throttle_init AsyncThrottle_init : ctor.
Variables Throttle_call AsyncThrottle_call : method.

Definition init_of (c : throttle_class) : ctor :=
  match c with ThrottleCls => Throttle_init | AsyncThrottleCls => AsyncThrottle_init end.

Definition call_of (c : throttle_class) : method :=
  match c with ThrottleCls => Throttle_call | AsyncThrottleCls => AsyncThrottle_call end.

(** [cls(calls, period, raise_on_throttle)]: run [__init__]; if it
    returns, the new object gets a fresh identity. *)
Definition new (c : throttle_class) (n p : Z) (r : bool) : M loc := fun s =>
  match init_of c n p r with
  | Return o =>
      let t := fresh (dom (thrs s)) in
      Some (Return t, set_thrs (<[t := (c, o)]> (thrs s)) s)
  | Raise e => Some (Raise e, s)
  end.

(** [thr.call()]: the method of the object's class runs on the object and
    the clock, and on nothing else. *)
Definition thr_call (t : loc) : M unit := fun s =>
  match thrs s !! t with
  | Some (c, o) =>
      match call_of c o (clk s) with
      | Some (r, o', k') =>
          Some (r, log (EvThrCall t r) (set_clk k' (set_thrs (<[t := (c, o')]> (thrs s)) s)))
      | None => None
      end
  | None => None
  end.

(** The call of [func] on the wrapper's own arguments. *)
Definition invoke (f : function) (a : Args) : M Res := fun s =>
  let s1 := log (EvInvoke f a) s in
  let '(r, w') := fn_body f a (world s1) in
  Some (r, set_world w' s1).

(** ** decorators.py *)

Definition asyncio_iscoroutinefunction (f : function) : bool := fn_iscoroutine f.

(** Attributes of a freshly defined [wrapper], before [@wraps(func)]. *)
Definition wrapper_meta : metadata := {|
  __module__ := "call_throttle.decorators";
  __name__ := "wrapper";
  __qualname__ := "throttle.<locals>.decorator.<locals>.wrapper";
  __doc__ := None
|}.

Definition def_wrapper (code : wrapper_code) (func : function) (thr lock : loc) : closure := {|
  cl_code := code; cl_func := func; cl_thr := thr; cl_lock := lock;
  cl_meta := wrapper_meta; cl_wrapped := None
|}.

(** [functools.wraps(wrapped)(wrapper)]: copy the attributes of
    WRAPPER_ASSIGNMENTS and set [__wrapped__]. *)
Definition wraps (wrapped : function) (wrapper : closure) : closure := {|
  cl_code := cl_code wrapper; cl_func := cl_func wrapper;
  cl_thr := cl_thr wrapper; cl_lock := cl_lock wrapper;
  cl_meta := {| __module__ := __module__ (fn_meta wrapped);
                __name__ := __name__ (fn_meta wrapped);
                __qualname__ := __qualname__ (fn_meta wrapped);
                __doc__ := __doc__ (fn_meta wrapped) |};
  cl_wrapped := Some wrapped
|}.

(** Calling the closure: the body of [wrapper], lines 44-49 and 56-61. *)
Definition wrapper (c : closure) (args : Args) : M Res :=
  match cl_code c with
  | AsyncWrapper =>
      with_ (cl_lock c) (await (thr_call (cl_thr c))) ;;;
      await (invoke (cl_func c) args)
  | SyncWrapper =>
      with_ (cl_lock c) (thr_call (cl_thr c)) ;;;
      invoke (cl_func c) args
  end.

(** [decorator(func)], lines 37-63, with the free variables [calls],
    [period] and [raise_on_throttle] of the enclosing [throttle]. *)
Definition decorator (calls period : Z) (raise_on_throttle : bool)
    (func : function) : M closure :=
  if asyncio_iscoroutinefunction func then
    thr <- new AsyncThrottleCls calls period raise_on_throttle ;;
    lock <- asyncio_Lock ;;
    ret (wraps func (def_wrapper AsyncWrapper func thr lock))
  else
    thr <- new ThrottleCls calls period raise_on_throttle ;;
    lock <- threading_RLock ;;
    ret (wraps func (def_wrapper SyncWrapper func thr lock)).

(** [throttle(calls, period, raise_on_throttle=False)], lines 8-65: it
    only builds the [decorator] closure. *)
Definition throttle (calls period : Z) (raise_on_throttle : bool) :
    function -> M closure :=
  decorator calls period raise_on_throttle.

(** What [asyncio.iscoroutinefunction] answers on a wrapper: it was
    defined with [async def] or with [def]. *)
Definition closure_iscoroutine (c : closure) : bool :=
  match cl_code c with AsyncWrapper => true | SyncWrapper => false end.

(** The class of the throttle object and the kind of lock a closure
    refers to, read from the store. *)
Definition thr_class_at (c : closure) (s : state) : option throttle_class :=
  fst <$> thrs s !! cl_thr c.

Definition lock_at (c : closure) (s : state) : option lock_obj :=
  locks s !! cl_lock c.

End Decorators.

Arguments function : clear implicits.
Arguments closure : clear implicits.
Arguments event : clear implicits.
Arguments state : clear implicits.
Arguments M : clear implicits.

(** ** The throttle classes, from the specification *)

Module Spec.

(** Modelled from the spec: the constructor of [Throttle] and of
    [AsyncThrottle] ([call_throttle/throttle.py] is missing).  Sections 3,
    6 and 7: a configuration is invalid if [calls <= 0] or [period <= 0],
    which is detected at construction; the history starts empty. *)
Definition init : ctor := fun n p r =>
  if ((n <=? 0) || (p <=? 0))%Z then Raise ConfigurationError
  else Return {| thr_cfg := {| calls := n; period := p; raise_on_throttle := r |};
                 thr_history := [] |}.

Inductive AdmissionDecision : Type :=
| Allow
| WaitFor (d : Z)
| Reject.

(** Modelled from the spec: section 4.1, eviction of every timestamp [t]
    with [now - t >= period]. *)
Definition evict (t_now p : Z) (h : list Z) : list Z :=
  List.filter (fun t => (t_now - t <? p)%Z) h.

(** Modelled from the spec: section 4.1, the Sliding-Window Admission
    Calculator.  The result pairs the history after the step with the
    decision.  [oldest] is [history[0]]; the history can be both full and
    empty only when [calls <= 0], which [init] refuses. *)
Definition Calculator_decide (h : list Z) (t_now : Z) (cfg : ThrottleConfiguration)
    : list Z * AdmissionDecision :=
  let h' := evict t_now (period cfg) h in
  if (Z.of_nat (length h') <? calls cfg)%Z then (h' ++ [t_now], Allow)
  else
    let oldest := hd t_now h' in
    let releaseAt := (oldest + period cfg)%Z in
    if raise_on_throttle cfg then (h', Reject)
    else (h', WaitFor (releaseAt - t_now)).

(** Modelled from the spec: the wait step of section 4.2 blocks the
    calling thread for the given duration. *)
Definition time_sleep (d : Z) (k : clock) : outcome unit * clock :=
  (Return tt, {| now := now k + Z.max 0 d; cancel_requested := cancel_requested k |}).

(** Modelled from the spec: the wait step of section 4.3 suspends the
    task; a pending cancellation is delivered there instead. *)
Definition asyncio_sleep (d : Z) (k : clock) : outcome unit * clock :=
  if cancel_requested k
  then (Raise CancelledError, {| now := now k; cancel_requested := false |})
  else (Return tt, {| now := now k + Z.max 0 d; cancel_requested := false |}).

(** Modelled from the spec: [call()], the admission loop of sections 4.2 and
    4.3.  The loop has no attempt counter; [fuel] bounds the number of
    decisions the embedding follows. *)
Fixpoint call_loop (sleep : Z -> clock -> outcome unit * clock) (fuel : nat) : method :=
  fun o k =>
    match fuel with
    | O => None
    | S fuel' =>
        let '(h, d) := Calculator_decide (thr_history o) (now k) (thr_cfg o) in
        let o' := {| thr_cfg := thr_cfg o; thr_history := h |} in
        match d with
        | Allow => Some (Return tt, o', k)
        | Reject => Some (Raise ThrottleException, o', k)
        | WaitFor d =>
            match sleep d k with
            | (Return _, k') => call_loop sleep fuel' o' k'
            | (Raise e, k') => Some (Raise e, o', k')
            end
        end
    end.

Definition Throttle_call (fuel : nat) : method := call_loop time_sleep fuel.
Definition AsyncThrottle_call (fuel : nat) : method := call_loop asyncio_sleep fuel.

(** The window is full at [t_now]: after eviction the history holds
    [calls] timestamps or more. *)
Definition window_full (o : throttle_obj) (t_now : Z) : Prop :=
  (calls (thr_cfg o) <= Z.of_nat (length (evict t_now (period (thr_cfg o)) (thr_history o))))%Z.

(** The decorator and its wrappers over these classes. *)
Definition decorator {Args Res W} :=
  @decorator Args Res W init init.
Definition wrapper {Args Res W} (fuel : nat) :=
  @wrapper Args Res W (Throttle_call fuel) (AsyncThrottle_call fuel).

End Spec.

(** ** Several callers of one wrapper *)

Module Concurrent.

(** Where a caller stands in the body of [wrapper]. *)
Inductive pc : Type :=
| Entry                      (* before [with lock:] *)
| Deciding                   (* inside thr.call(), about to decide *)
| Waiting (until : Z)        (* inside thr.call(), in its wait step *)
| Leaving (r : outcome unit) (* thr.call() is over, [__exit__] is next *)
| Calling                    (* past the [with] block, [func] is next *)
| Finished (e : option exn).

(** Inside the [with] block. *)
Definition in_guard (p : pc) : bool :=
  match p with
  | Deciding | Waiting _ | Leaving _ => true
  | Entry | Calling | Finished _ => false
  end.

(** One guarded operation: its throttle object, its lock (free, or held
    by a caller), the clock, and the callers, which are threads or, when
    [s_async] holds, tasks of one event loop. *)
Record sys : Type := {
  s_async : bool;
  s_thr : throttle_obj;
  s_now : Z;
  s_lock : option nat;
  s_pcs : list pc
}.

Definition set_pc (i : nat) (p : pc) (σ : sys) : sys :=
  {| s_async := s_async σ; s_thr := s_thr σ; s_now := s_now σ;
     s_lock := s_lock σ; s_pcs := <[i := p]> (s_pcs σ) |}.
Definition set_lock (o : option nat) (σ : sys) : sys :=
  {| s_async := s_async σ; s_thr := s_thr σ; s_now := s_now σ;
     s_lock := o; s_pcs := s_pcs σ |}.
Definition set_thr (o : throttle_obj) (σ : sys) : sys :=
  {| s_async := s_async σ; s_thr := o; s_now := s_now σ;
     s_lock := s_lock σ; s_pcs := s_pcs σ |}.
Definition set_now (t : Z) (σ : sys) : sys :=
  {| s_async := s_async σ; s_thr := s_thr σ; s_now := t;
     s_lock := s_lock σ; s_pcs := s_pcs σ |}.

(** The scheduler's choices: let a caller take its next step, let time
    pass, cancel a task, have a caller that is done call again. *)
Inductive label : Type :=
| Run (i : nat)
| Tick (d : Z)
| Cancel (i : nat)
| Again (i : nat).

Inductive cevent : Type :=
| CAcquire (i : nat)
| CDecide (i : nat) (d : Spec.AdmissionDecision)
| CWake (i : nat)
| CRelease (i : nat)
| CInvoke (i : nat)
| CCancelled (i : nat).

Definition run_caller (i : nat) (σ : sys) : option (sys * list cevent) :=
  match s_pcs σ !! i with
  | Some Entry =>
      (* lock.acquire(): goes through only when the lock is free *)
      match s_lock σ with
      | None => Some (set_pc i Deciding (set_lock (Some i) σ), [CAcquire i])
      | Some _ => None
      end
  | Some Deciding =>
      let '(h, d) := Spec.Calculator_decide (thr_history (s_thr σ)) (s_now σ)
                       (thr_cfg (s_thr σ)) in
      let σ' := set_thr {| thr_cfg := thr_cfg (s_thr σ); thr_history := h |} σ in
      let p := match d with
               | Spec.Allow => Leaving (Return tt)
               | Spec.Reject => Leaving (Raise ThrottleException)
               | Spec.WaitFor w => Waiting (s_now σ + Z.max 0 w)
               end in
      Some (set_pc i p σ', [CDecide i d])
  | Some (Waiting u) =>
      if (u <=? s_now σ)%Z then Some (set_pc i Deciding σ, [CWake i]) else None
  | Some (Leaving r) =>
      (* lock.release(), then the pending outcome of the block *)
      match s_lock σ with
      | Some j =>
          if Nat.eqb i j then
            let p := match r with
                     | Return _ => Calling
                     | Raise e => Finished (Some e)
                     end in
            Some (set_pc i p (set_lock None σ), [CRelease i])
          else None
      | None => None
      end
  | Some Calling => Some (set_pc i (Finished None) σ, [CInvoke i])
  | Some (Finished _) => None
  | None => None
  end.

Definition cancel_caller (i : nat) (σ : sys) : option (sys * list cevent) :=
  if s_async σ then
    match s_pcs σ !! i with
    | Some Entry => Some (set_pc i (Finished (Some CancelledError)) σ, [CCancelled i])
    | Some (Waiting _) => Some (set_pc i (Leaving (Raise CancelledError)) σ, [CCancelled i])
    | _ => None
    end
  else None.

Definition step (σ : sys) (l : label) : option (sys * list cevent) :=
  match l with
  | Run i => run_caller i σ
  | Tick d => if (0 <=? d)%Z then Some (set_now (s_now σ + d) σ, []) else None
  | Cancel i => cancel_caller i σ
  | Again i =>
      match s_pcs σ !! i with
      | Some (Finished _) => Some (set_pc i Entry σ, [])
      | _ => None
      end
  end.

Fixpoint run (σ : sys) (ls : list label) : option (sys * list cevent) :=
  match ls with
  | [] => Some (σ, [])
  | l :: ls' =>
      match step σ l with
      | Some (σ', evs) =>
          match run σ' ls' with
          | Some (σ'', evs') => Some (σ'', evs ++ evs')
          | None => None
          end
      | None => None
      end
  end.

(** [n] callers before any of them has entered the wrapper. *)
Definition init (async : bool) (o : throttle_obj) (n : nat) : sys :=
  {| s_async := async; s_thr := o; s_now := 0; s_lock := None;
     s_pcs := replicate n Entry |}.

Definition acquired (evs : list cevent) : list nat :=
  omap (fun e => match e with CAcquire i => Some i | _ => None end) evs.
Definition released (evs : list cevent) : list nat :=
  omap (fun e => match e with CRelease i => Some i | _ => None end) evs.

Definition holder (σ : sys) : list nat :=
  match s_lock σ with Some i => [i] | None => [] end.

(** Whoever is inside the [with] block holds the lock. *)
Definition guard_inv (σ : sys) : Prop :=
  forall i p, s_pcs σ !! i = Some p -> in_guard p = true -> s_lock σ = Some i.

(** The callers that invoked [func], in the order of the invocations. *)
Definition invoked (evs : list cevent) : list nat :=
  omap (fun e => match e with CInvoke i => Some i | _ => None end) evs.

(** How often caller [i] occurs in a list of callers. *)
Definition times (i : nat) (l : list nat) : nat := count_occ Nat.eq_dec l i.

(** The lock holder is a caller inside the [with] block. *)
Definition holder_inv (σ : sys) : Prop :=
  forall i, s_lock σ = Some i -> exists p, s_pcs σ !! i = Some p /\ in_guard p = true.


(** 1 when caller [i] is inside the [with] block, 0 otherwise. *)
Definition inside (σ : sys) (i : nat) : nat :=
  match s_pcs σ !! i with
  | Some p => if in_guard p then 1 else 0
  | None => 0
  end.

(** 1 when caller [i] is past the [with] block with [func] still to run. *)
Definition at_func (σ : sys) (i : nat) : nat :=
  match s_pcs σ !! i with
  | Some Calling => 1
  | _ => 0
  end.

End Concurrent.

(** ** Vocabulary of the statements *)

(** A lock the sequential caller can take: an [RLock] always (it is
    re-entrant), an [asyncio.Lock] when it is not locked. *)
Definition lock_ready (k : lock_obj) : bool :=
  match k with
  | RLock _ => true
  | AsyncLock b => negb b
  end.

(** The lock after one more [acquire]. *)
Definition hold (k : lock_obj) : lock_obj :=
  match k with
  | RLock n => RLock (S n)
  | AsyncLock _ => AsyncLock true
  end.

(** The events of one pass through [with lock: thr.call()]. *)
Definition guard_events {Args Res W} (l t : loc) (r : outcome unit) : list (event Args Res W) :=
  [EvAcquire l; EvThrCall t r; EvRelease l].

(** The state after one pass through the [with] block in which the lock
    could be taken and the method came back: the lock is as it was, the
    throttle object and the clock are what the method left, and nothing
    else has changed. *)
Definition after_guard {Args Res W} (l t : loc) (c : throttle_class) (o' : throttle_obj)
    (k' : clock) (r : outcome unit) (s : state Args Res W) : state Args Res W :=
  {| clk := k'; thrs := <[t := (c, o')]> (thrs s); locks := locks s;
     world := world s; trace := trace s ++ guard_events l t r |}.

(** What [decorator] builds for a function on which
    [asyncio.iscoroutinefunction] answers [b]. *)
Definition code_for (b : bool) : wrapper_code := if b then AsyncWrapper else SyncWrapper.
Definition class_for (b : bool) : throttle_class := if b then AsyncThrottleCls else ThrottleCls.
Definition lock_for (b : bool) : lock_obj := if b then AsyncLock false else RLock 0.

(** The reading of "the caller chooses the variant at construction": the
    arguments given to [throttle] fix the code of the wrapper, whatever
    function is decorated later. *)
Definition variant_chosen_at_construction (Args Res W : Type) (Ti Ai : ctor) : Prop :=
  forall (n p : Z) (r : bool), exists code : wrapper_code,
    forall (func : function Args Res W) s w s',
      throttle Ti Ai n p r func s = Some (Return w, s') -> cl_code w = code.

(** ** Sample guarded operations *)

Module Demo.

Definition meta (name : string) (doc : option string) : metadata :=
  {| __module__ := "__main__"; __name__ := name; __qualname__ := name; __doc__ := doc |}.

(** [def bump(n): seen.append(n); return n + 1] *)
Definition bump : function nat nat (list nat) := {|
  fn_meta := meta "bump" (Some "Record n, return its successor.");
  fn_iscoroutine := false;
  fn_body := fun n w => (Return (S n), w ++ [n])
|}.

(** [async def fetch(n): seen.append(n); return 2 * n] *)
Definition fetch : function nat nat (list nat) := {|
  fn_meta := meta "fetch" None;
  fn_iscoroutine := true;
  fn_body := fun n w => (Return (2 * n), w ++ [n])
|}.

(** [def boom(n): seen.append(n); raise OtherError("boom")] *)
Definition boom : function nat nat (list nat) := {|
  fn_meta := meta "boom" None;
  fn_iscoroutine := false;
  fn_body := fun n w => (Raise (OtherError "boom"), w ++ [n])
|}.

Definition s0 : state nat nat (list nat) := {|
  clk := {| now := 0; cancel_requested := false |};
  thrs := ∅; locks := ∅; world := []; trace := []
|}.

(** The store after [throttle(calls=1, period=1000, raise_on_throttle=r)]
    has decorated [bump], and the closure it returned. *)
Definition thr0 (r : bool) : throttle_obj :=
  {| thr_cfg := {| calls := 1; period := 1000; raise_on_throttle := r |};
     thr_history := [] |}.

Definition w_bump : closure nat nat (list nat) :=
  wraps bump (def_wrapper SyncWrapper bump 0 0).

Definition s_bump (r : bool) : state nat nat (list nat) := {|
  clk := {| now := 0; cancel_requested := false |};
  thrs := {[ 0 := (ThrottleCls, thr0 r) ]};
  locks := {[ 0 := RLock 0 ]};
  world := []; trace := []
|}.

(** The same for [fetch]. *)
Definition w_fetch : closure nat nat (list nat) :=
  wraps fetch (def_wrapper AsyncWrapper fetch 0 0).

Definition s_fetch (r : bool) (cancel : bool) : state nat nat (list nat) := {|
  clk := {| now := 0; cancel_requested := cancel |};
  thrs := {[ 0 := (AsyncThrottleCls, thr0 r) ]};
  locks := {[ 0 := AsyncLock false ]};
  world := []; trace := []
|}.

(** [fetch]'s throttle with its one slot taken at time 0, seen at time
    10 by a task whose cancellation has been requested. *)
Definition s_fetch_busy : state nat nat (list nat) := {|
  clk := {| now := 10; cancel_requested := true |};
  thrs := {[ 0 := (AsyncThrottleCls,
                   {| thr_cfg := {| calls := 1; period := 1000; raise_on_throttle := false |};
                      thr_history := [0%Z] |}) ]};
  locks := {[ 0 := AsyncLock false ]};
  world := []; trace := []
|}.

(** A schedule of two threads calling the wrapper of [bump]: thread 0
    goes through the block, thread 1 enters it and has to wait. *)
Definition schedule : list Concurrent.label :=
  [Concurrent.Run 0; Concurrent.Run 0; Concurrent.Run 0;
   Concurrent.Run 1; Concurrent.Run 1].

End Demo.

(** * Properties *)

(** ** The monad and the store *)

Section Sequential.

Context {Args Res W : Type}.
Variables TC AC : method.

Implicit Types (s : state Args Res W) (l t : loc).

Lemma acquire_ready l (k : lock_obj) s :
  locks s !! l = Some k -> lock_ready k = true ->
  acquire l s = Some (Return tt, log (EvAcquire l) (set_locks (<[l := hold k]> (locks s)) s)).
Proof.
  intros Hl Hr. unfold acquire. rewrite Hl.
  destruct k as [n|[]]; simpl in *; try reflexivity; discriminate.
Qed.

Lemma acquire_inv l s s' (r : outcome unit) :
  acquire l s = Some (r, s') ->
  exists k, locks s !! l = Some k /\ lock_ready k = true /\ r = Return tt /\
            s' = log (EvAcquire l) (set_locks (<[l := hold k]> (locks s)) s).
Proof.
  unfold acquire. destruct (locks s !! l) as [[n|[]]|] eqn:Hl; intros H; inversion H; subst.
  - exists (RLock n). auto.
  - exists (AsyncLock false). auto.
Qed.

Lemma release_held l (k : lock_obj) s :
  locks s !! l = Some (hold k) -> lock_ready k = true ->
  release l s = Some (Return tt, log (EvRelease l) (set_locks (<[l := k]> (locks s)) s)).
Proof.
  intros Hl Hr. unfold release. rewrite Hl.
  destruct k as [n|[]]; simpl in *; try reflexivity; discriminate.
Qed.

Lemma thr_call_inv t s s' (r : outcome unit) :
  thr_call TC AC t s = Some (r, s') ->
  exists c o o' k',
    thrs s !! t = Some (c, o) /\ call_of TC AC c o (clk s) = Some (r, o', k') /\
    s' = log (EvThrCall t r) (set_clk k' (set_thrs (<[t := (c, o')]> (thrs s)) s)).
Proof.
  unfold thr_call. destruct (thrs s !! t) as [[c o]|] eqn:Ht; [|discriminate].
  destruct (call_of TC AC c o (clk s)) as [[[r0 o'] k']|] eqn:Hc; [|discriminate].
  intros H; inversion H; subst. exists c, o, o', k'. auto.
Qed.

Lemma with_call (l t : loc) (k : lock_obj) (c : throttle_class) (o o' : throttle_obj)
    (k' : clock) (r : outcome unit) s :
  locks s !! l = Some k -> lock_ready k = true ->
  thrs s !! t = Some (c, o) -> call_of TC AC c o (clk s) = Some (r, o', k') ->
  with_ l (thr_call TC AC t) s = Some (r, after_guard l t c o' k' r s).
Proof.
  intros Hl Hr Ht Hc. unfold with_, bind. rewrite (acquire_ready l k s Hl Hr).
  unfold try_finally, thr_call. simpl. rewrite Ht, Hc.
  rewrite (release_held l k); [| simpl; apply lookup_insert_eq | exact Hr].
  unfold after_guard, guard_events, log, set_locks, set_clk, set_thrs. simpl.
  rewrite insert_insert_eq, (insert_id _ _ _ Hl), <- !app_assoc. reflexivity.
Qed.

Lemma with_call_inv (l t : loc) (r : outcome unit) s s1 :
  with_ l (thr_call TC AC t) s = Some (r, s1) ->
  exists k c o o' k',
    locks s !! l = Some k /\ lock_ready k = true /\
    thrs s !! t = Some (c, o) /\ call_of TC AC c o (clk s) = Some (r, o', k') /\
    s1 = after_guard l t c o' k' r s.
Proof.
  intros H. unfold with_, bind in H.
  destruct (acquire l s) as [[ra sa]|] eqn:Ha; [|discriminate].
  destruct (acquire_inv _ _ _ _ Ha) as (k & Hl & Hr & -> & ->).
  unfold try_finally in H.
  destruct (thr_call TC AC t _) as [[rc sc]|] eqn:Hc; [|discriminate].
  destruct (thr_call_inv _ _ _ _ Hc) as (c & o & o' & k' & Ht & Hm & ->).
  simpl in Ht, Hm.
  pose proof (with_call l t k c o o' k' rc s Hl Hr Ht Hm) as Hw.
  unfold with_, bind in Hw. rewrite Ha in Hw. unfold try_finally in Hw. rewrite Hc in Hw.
  rewrite Hw in H. inversion H; subst. exists k, c, o, o', k'. auto.
Qed.

(** ** One call of a wrapper *)

Implicit Types (c : closure Args Res W) (a : Args).

(** Both bodies are the same sequence; they differ in the lock and in
    the class of the throttle, which the store records. *)
Lemma wrapper_body c a s :
  wrapper TC AC c a s =
  bind (with_ (cl_lock c) (thr_call TC AC (cl_thr c))) (fun _ => invoke (cl_func c) a) s.
Proof. unfold wrapper, await. destruct (cl_code c); reflexivity. Qed.

Lemma invoke_run (f : function Args Res W) a s :
  invoke f a s =
  Some (fst (fn_body f a (world s)),
        set_world (snd (fn_body f a (world s))) (log (EvInvoke f a) s)).
Proof. unfold invoke. simpl. destruct (fn_body f a (world s)); reflexivity. Qed.

Lemma wrapper_run c a (k : lock_obj) (cls : throttle_class) (o o' : throttle_obj)
    (k' : clock) (r : outcome unit) s :
  locks s !! cl_lock c = Some k -> lock_ready k = true ->
  thrs s !! cl_thr c = Some (cls, o) -> call_of TC AC cls o (clk s) = Some (r, o', k') ->
  wrapper TC AC c a s =
  match r with
  | Return _ => invoke (cl_func c) a (after_guard (cl_lock c) (cl_thr c) cls o' k' r s)
  | Raise e => Some (Raise e, after_guard (cl_lock c) (cl_thr c) cls o' k' r s)
  end.
Proof.
  intros Hl Hr Ht Hc. rewrite wrapper_body. unfold bind.
  rewrite (with_call _ _ _ _ _ _ _ _ _ Hl Hr Ht Hc). destruct r; reflexivity.
Qed.

Lemma wrapper_inv c a s (res : outcome Res) s' :
  wrapper TC AC c a s = Some (res, s') ->
  exists (k : lock_obj) cls o o' k' r,
    locks s !! cl_lock c = Some k /\ lock_ready k = true /\
    thrs s !! cl_thr c = Some (cls, o) /\ call_of TC AC cls o (clk s) = Some (r, o', k') /\
    with_ (cl_lock c) (thr_call TC AC (cl_thr c)) s
      = Some (r, after_guard (cl_lock c) (cl_thr c) cls o' k' r s) /\
    match r with
    | Return _ =>
        invoke (cl_func c) a (after_guard (cl_lock c) (cl_thr c) cls o' k' r s) = Some (res, s')
    | Raise e =>
        res = Raise e /\ s' = after_guard (cl_lock c) (cl_thr c) cls o' k' r s
    end.
Proof.
  intros H. rewrite wrapper_body in H. unfold bind in H.
  destruct (with_ _ _ s) as [[r s1]|] eqn:Hw; [|discriminate].
  destruct (with_call_inv _ _ _ _ _ Hw) as (k & cls & o & o' & k' & Hl & Hr & Ht & Hc & ->).
  exists k, cls, o, o', k', r. repeat split; try assumption.
  destruct r; [exact H | inversion H; auto].
Qed.

(** A call changes the store at the closure's own throttle object only,
    leaves every lock as it found it, and creates nothing. *)
Lemma wrapper_frame c a s (res : outcome Res) s' :
  wrapper TC AC c a s = Some (res, s') ->
  locks s' = locks s /\
  dom (thrs s') = dom (thrs s) /\
  (forall t, t <> cl_thr c -> thrs s' !! t = thrs s !! t) /\
  exists cls o r o' k',
    thrs s !! cl_thr c = Some (cls, o) /\
    call_of TC AC cls o (clk s) = Some (r, o', k') /\
    thrs s' !! cl_thr c = Some (cls, o').
Proof.
  intros H. destruct (wrapper_inv _ _ _ _ _ H)
    as (k & cls & o & o' & k' & r & Hl & Hr & Ht & Hc & _ & Hres).
  assert (Hs : locks s' = locks s /\ thrs s' = <[cl_thr c := (cls, o')]> (thrs s)).
  { destruct r.
    - rewrite invoke_run in Hres. injection Hres as _ <-. split; reflexivity.
    - destruct Hres as [_ ->]. split; reflexivity. }
  destruct Hs as [HL HT]. rewrite HL, HT. split; [reflexivity|]. split; [|split].
  - apply dom_insert_lookup_L. rewrite Ht. eauto.
  - intros t Hne. apply lookup_insert_ne. congruence.
  - exists cls, o, r, o', k'. split; [exact Ht|]. split; [exact Hc|]. apply lookup_insert_eq.
Qed.

End Sequential.

(** ** The wrapper, whatever the throttle classes do *)

Section Wrapper.

Context {Args Res W : Type}.
Variables TC AC : method.

Implicit Types (s : state Args Res W) (c : closure Args Res W) (a : Args).

(** C5.  Every call of a wrapper that comes back went through these steps
    in this order: the lock was acquired, [thr.call()] ran to its end,
    the lock was released, and only then, if [thr.call()] returned, the
    guarded operation was invoked, in a state where the lock is as it was
    before the call: the operation runs outside the [with] block. *)
Theorem wrapper_control_flow c a s (res : outcome Res) s' :
  wrapper TC AC c a s = Some (res, s') ->
  exists (r : outcome unit) s1,
    with_ (cl_lock c) (thr_call TC AC (cl_thr c)) s = Some (r, s1) /\
    trace s1 = trace s ++ [EvAcquire (cl_lock c); EvThrCall (cl_thr c) r;
                            EvRelease (cl_lock c)] /\
    locks s1 = locks s /\
    world s1 = world s /\
    match r with
    | Return _ =>
        invoke (cl_func c) a s1 = Some (res, s') /\
        trace s' = trace s1 ++ [EvInvoke (cl_func c) a] /\
        locks s' = locks s
    | Raise e => res = Raise e /\ s' = s1
    end.
Proof.
  intros H. destruct (wrapper_inv TC AC _ _ _ _ _ H)
    as (k & cls & o & o' & k' & r & Hl & Hr & Ht & Hc & Hw & Hres).
  exists r, (after_guard (cl_lock c) (cl_thr c) cls o' k' r s).
  split; [exact Hw|]. repeat (split; [reflexivity|]).
  destruct r as [[]|e]; [|exact Hres].
  split; [exact Hres|]. rewrite invoke_run in Hres.
  injection Hres as _ <-. split; reflexivity.
Qed.

(** C6.  When the lock can be taken and [thr.call()] returns, the wrapper
    calls the guarded operation on the very arguments it was given and
    its outcome is the operation's outcome: the value it returns, or the
    exception it raises. *)
Theorem wrapper_transparent c a s (k : lock_obj) (cls : throttle_class)
    (o o' : throttle_obj) (k' : clock) :
  locks s !! cl_lock c = Some k -> lock_ready k = true ->
  thrs s !! cl_thr c = Some (cls, o) ->
  call_of TC AC cls o (clk s) = Some (Return tt, o', k') ->
  exists s',
    wrapper TC AC c a s = Some (fst (fn_body (cl_func c) a (world s)), s') /\
    world s' = snd (fn_body (cl_func c) a (world s)) /\
    trace s' = trace s ++ [EvAcquire (cl_lock c); EvThrCall (cl_thr c) (Return tt);
                            EvRelease (cl_lock c); EvInvoke (cl_func c) a].
Proof.
  intros Hl Hr Ht Hc.
  rewrite (wrapper_run TC AC c a k cls o o' k' (Return tt) s Hl Hr Ht Hc), invoke_run.
  eexists. split; [reflexivity|]. split; [reflexivity|].
  simpl. unfold guard_events. rewrite <- app_assoc. reflexivity.
Qed.

(** C9.  When [thr.call()] raises, whatever the exception, the wrapper
    raises the same exception after the lock has been released: the lock
    is left as it was found, the guarded operation has not run, and the
    next caller can acquire the lock. *)
Theorem guard_released_on_raise c a s (k : lock_obj) (cls : throttle_class)
    (o o' : throttle_obj) (k' : clock) (e : exn) :
  locks s !! cl_lock c = Some k -> lock_ready k = true ->
  thrs s !! cl_thr c = Some (cls, o) ->
  call_of TC AC cls o (clk s) = Some (Raise e, o', k') ->
  exists s',
    wrapper TC AC c a s = Some (Raise e, s') /\
    locks s' = locks s /\
    trace s' = trace s ++ [EvAcquire (cl_lock c); EvThrCall (cl_thr c) (Raise e);
                            EvRelease (cl_lock c)] /\
    world s' = world s /\
    is_Some (acquire (cl_lock c) s').
Proof.
  intros Hl Hr Ht Hc.
  rewrite (wrapper_run TC AC c a k cls o o' k' (Raise e) s Hl Hr Ht Hc).
  eexists. split; [reflexivity|]. repeat (split; [reflexivity|]).
  rewrite (acquire_ready _ k); [eauto | exact Hl | exact Hr].
Qed.

End Wrapper.

(** ** The decorator *)

Section Decorator.

Context {Args Res W : Type}.
Variables Ti Ai : ctor.
Variables TC AC : method.

Implicit Types (s : state Args Res W) (c w : closure Args Res W) (a : Args).
Implicit Types (func : function Args Res W).

Lemma meta_eta (m : metadata) :
  {| __module__ := __module__ m; __name__ := __name__ m;
     __qualname__ := __qualname__ m; __doc__ := __doc__ m |} = m.
Proof. destruct m; reflexivity. Qed.

Lemma decorator_inv (n p : Z) (r : bool) func s w s' :
  decorator Ti Ai n p r func s = Some (Return w, s') ->
  exists o,
    init_of Ti Ai (class_for (fn_iscoroutine func)) n p r = Return o /\
    w = wraps func (def_wrapper (code_for (fn_iscoroutine func)) func
                      (fresh (dom (thrs s))) (fresh (dom (locks s)))) /\
    s' = set_locks (<[fresh (dom (locks s)) := lock_for (fn_iscoroutine func)]> (locks s))
           (set_thrs (<[fresh (dom (thrs s)) :=
                         (class_for (fn_iscoroutine func), o)]> (thrs s)) s).
Proof.
  unfold decorator, asyncio_iscoroutinefunction, bind, new, asyncio_Lock, threading_RLock, ret.
  destruct (fn_iscoroutine func); simpl.
  - destruct (Ai n p r) as [o|e]; [|discriminate]. simpl.
    intros H; injection H as <- <-. exists o. auto.
  - destruct (Ti n p r) as [o|e]; [|discriminate]. simpl.
    intros H; injection H as <- <-. exists o. auto.
Qed.

Lemma decorator_raises (n p : Z) (r : bool) func s (e : exn) :
  init_of Ti Ai (class_for (fn_iscoroutine func)) n p r = Raise e ->
  decorator Ti Ai n p r func s = Some (Raise e, s).
Proof.
  unfold decorator, asyncio_iscoroutinefunction, bind, new.
  destruct (fn_iscoroutine func); simpl; intros ->; reflexivity.
Qed.

(** In the store a decoration leaves, the closure's throttle object and
    lock are the two new objects. *)
Lemma decorator_fresh (n p : Z) (r : bool) func s w s' :
  decorator Ti Ai n p r func s = Some (Return w, s') ->
  (cl_thr w ∉ dom (thrs s)) /\ (cl_lock w ∉ dom (locks s)) /\
  dom (thrs s') = {[cl_thr w]} ∪ dom (thrs s) /\
  dom (locks s') = {[cl_lock w]} ∪ dom (locks s) /\
  thr_class_at w s' = Some (class_for (fn_iscoroutine func)) /\
  lock_at w s' = Some (lock_for (fn_iscoroutine func)).
Proof.
  intros H. destruct (decorator_inv _ _ _ _ _ _ _ H) as (o & _ & -> & ->).
  unfold thr_class_at, lock_at. simpl.
  split; [apply is_fresh|]. split; [apply is_fresh|].
  rewrite !dom_insert_L, !lookup_insert_eq. auto.
Qed.

Lemma wrapper_sync_only (AC' : method) c a s :
  thr_class_at c s = Some ThrottleCls -> wrapper TC AC c a s = wrapper TC AC' c a s.
Proof.
  intros Hc. rewrite !wrapper_body. unfold bind, with_, bind, try_finally.
  destruct (acquire (cl_lock c) s) as [[ra sa]|] eqn:Ha; [|reflexivity].
  destruct (acquire_inv _ _ _ _ Ha) as (k & _ & _ & -> & ->).
  unfold thr_call. simpl. unfold thr_class_at in Hc.
  destruct (thrs s !! cl_thr c) as [[cls o]|]; [|reflexivity].
  simpl in Hc. injection Hc as ->. reflexivity.
Qed.

Lemma wrapper_async_only (TC' : method) c a s :
  thr_class_at c s = Some AsyncThrottleCls -> wrapper TC AC c a s = wrapper TC' AC c a s.
Proof.
  intros Hc. rewrite !wrapper_body. unfold bind, with_, bind, try_finally.
  destruct (acquire (cl_lock c) s) as [[ra sa]|] eqn:Ha; [|reflexivity].
  destruct (acquire_inv _ _ _ _ Ha) as (k & _ & _ & -> & ->).
  unfold thr_call. simpl. unfold thr_class_at in Hc.
  destruct (thrs s !! cl_thr c) as [[cls o]|]; [|reflexivity].
  simpl in Hc. injection Hc as ->. reflexivity.
Qed.

(** C1, as the code has it.  The variant is chosen when the decorator is
    applied, by [asyncio.iscoroutinefunction] on the guarded operation: a
    coroutine function gets the [async def] wrapper, an [AsyncThrottle]
    and an [asyncio.Lock]; any other callable gets the [def] wrapper, a
    [Throttle] and a [threading.RLock].  The arguments of [throttle] play
    no part in the choice. *)
Theorem variant_chosen_by_inspection (n p : Z) (r : bool) func s w s' :
  throttle Ti Ai n p r func s = Some (Return w, s') ->
  cl_code w = (if asyncio_iscoroutinefunction func then AsyncWrapper else SyncWrapper) /\
  thr_class_at w s'
    = Some (if asyncio_iscoroutinefunction func then AsyncThrottleCls else ThrottleCls) /\
  lock_at w s'
    = Some (if asyncio_iscoroutinefunction func then AsyncLock false else RLock 0).
Proof.
  unfold throttle. intros H.
  destruct (decorator_fresh _ _ _ _ _ _ _ H) as (_ & _ & _ & _ & Hc & Hl).
  destruct (decorator_inv _ _ _ _ _ _ _ H) as (o & _ & Hw & _).
  split; [rewrite Hw; reflexivity|]. split; assumption.
Qed.

(** C8.  The wrapper of a coroutine function is a coroutine function and
    the wrapper of any other callable is a plain function.  The first
    refers to an [AsyncThrottle] and never runs the call method of
    [Throttle]; the second refers to a [Throttle] and never runs the call
    method of [AsyncThrottle]. *)
Theorem decorator_preserves_kind (n p : Z) (r : bool) func s w s' :
  decorator Ti Ai n p r func s = Some (Return w, s') ->
  closure_iscoroutine w = asyncio_iscoroutinefunction func /\
  (asyncio_iscoroutinefunction func = true ->
     thr_class_at w s' = Some AsyncThrottleCls /\
     forall a σ (TC' : method), thr_class_at w σ = thr_class_at w s' ->
       wrapper TC AC w a σ = wrapper TC' AC w a σ) /\
  (asyncio_iscoroutinefunction func = false ->
     thr_class_at w s' = Some ThrottleCls /\
     forall a σ (AC' : method), thr_class_at w σ = thr_class_at w s' ->
       wrapper TC AC w a σ = wrapper TC AC' w a σ).
Proof.
  intros H.
  destruct (decorator_fresh _ _ _ _ _ _ _ H) as (_ & _ & _ & _ & Hc & _).
  destruct (decorator_inv _ _ _ _ _ _ _ H) as (o & _ & Hw & _).
  unfold asyncio_iscoroutinefunction. split; [|split].
  - rewrite Hw. unfold closure_iscoroutine. simpl. destruct (fn_iscoroutine func); reflexivity.
  - intros Hb. rewrite Hb in Hc. split; [exact Hc|].
    intros a σ TC' Hσ. apply wrapper_async_only. rewrite Hσ. exact Hc.
  - intros Hb. rewrite Hb in Hc. split; [exact Hc|].
    intros a σ AC' Hσ. apply wrapper_sync_only. rewrite Hσ. exact Hc.
Qed.

(** C10.  The closure the decorator returns carries the module, name,
    qualified name and docstring of the function it wraps, as
    [functools.wraps] copies them, and its [__wrapped__] attribute is
    that function. *)
Theorem wrapper_carries_metadata (n p : Z) (r : bool) func s w s' :
  decorator Ti Ai n p r func s = Some (Return w, s') ->
  cl_meta w = fn_meta func /\
  __name__ (cl_meta w) = __name__ (fn_meta func) /\
  __doc__ (cl_meta w) = __doc__ (fn_meta func) /\
  cl_wrapped w = Some func.
Proof.
  intros H. destruct (decorator_inv _ _ _ _ _ _ _ H) as (o & _ & -> & _).
  simpl. rewrite meta_eta. auto.
Qed.

(** C7.  A decoration creates exactly one throttle object and one lock,
    both new.  A call of the wrapper creates none: it runs the call
    method on the object the closure refers to and leaves the result
    there for the next call.  A wrapper made while the objects of an
    earlier one exist refers to two other objects, and calls through
    either wrapper leave the throttle object and the lock of the other
    untouched. *)
Theorem independent_throttle_state
    (n1 p1 : Z) (r1 : bool) (f : function Args Res W) s0 w1 s1
    (n2 p2 : Z) (r2 : bool) (g : function Args Res W) s w2 s2 :
  decorator Ti Ai n1 p1 r1 f s0 = Some (Return w1, s1) ->
  is_Some (thrs s !! cl_thr w1) -> is_Some (locks s !! cl_lock w1) ->
  decorator Ti Ai n2 p2 r2 g s = Some (Return w2, s2) ->
  ((cl_thr w1 ∉ dom (thrs s0)) /\ dom (thrs s1) = {[cl_thr w1]} ∪ dom (thrs s0) /\
   (cl_lock w1 ∉ dom (locks s0)) /\ dom (locks s1) = {[cl_lock w1]} ∪ dom (locks s0)) /\
  (cl_thr w1 <> cl_thr w2 /\ cl_lock w1 <> cl_lock w2) /\
  (forall w w', (w = w1 /\ w' = w2) \/ (w = w2 /\ w' = w1) ->
     forall a σ (res : outcome Res) σ',
       wrapper TC AC w a σ = Some (res, σ') ->
       dom (thrs σ') = dom (thrs σ) /\ dom (locks σ') = dom (locks σ) /\
       thrs σ' !! cl_thr w' = thrs σ !! cl_thr w' /\
       locks σ' !! cl_lock w' = locks σ !! cl_lock w' /\
       exists cls o ret o' k',
         thrs σ !! cl_thr w = Some (cls, o) /\
         call_of TC AC cls o (clk σ) = Some (ret, o', k') /\
         thrs σ' !! cl_thr w = Some (cls, o')).
Proof.
  intros H1 Ht Hl H2.
  destruct (decorator_fresh _ _ _ _ _ _ _ H1) as (Ft1 & Fl1 & Dt1 & Dl1 & _ & _).
  destruct (decorator_fresh _ _ _ _ _ _ _ H2) as (Ft2 & Fl2 & _ & _ & _ & _).
  assert (Hne : cl_thr w1 <> cl_thr w2 /\ cl_lock w1 <> cl_lock w2).
  { split; intros E; [apply Ft2 | apply Fl2]; rewrite <- E; apply elem_of_dom; assumption. }
  split; [auto|]. split; [exact Hne|].
  intros w w' Hw a σ res σ' Hcall.
  destruct (wrapper_frame TC AC _ _ _ _ _ Hcall) as (HL & HD & HF & Hown).
  split; [exact HD|]. split; [rewrite HL; reflexivity|].
  split; [|split; [rewrite HL; reflexivity | exact Hown]].
  apply HF. destruct Hne as [Hn _]. destruct Hw as [[-> ->]|[-> ->]]; congruence.
Qed.

End Decorator.

(** ** The throttle classes of the specification *)

Section SpecFacts.

Import Spec.

Variable sleep : Z -> clock -> outcome unit * clock.

Lemma decide_reject (h : list Z) (t : Z) (cfg : ThrottleConfiguration) :
  raise_on_throttle cfg = true ->
  (calls cfg <= Z.of_nat (length (evict t (period cfg) h)))%Z ->
  Calculator_decide h t cfg = (evict t (period cfg) h, Reject).
Proof.
  intros Hr Hfull. unfold Calculator_decide.
  destruct (Z.ltb_spec (Z.of_nat (length (evict t (period cfg) h))) (calls cfg)); [lia|].
  rewrite Hr. reflexivity.
Qed.

Lemma call_loop_reject (fuel : nat) (o : throttle_obj) (k : clock) :
  raise_on_throttle (thr_cfg o) = true -> window_full o (now k) ->
  call_loop sleep (S fuel) o k =
  Some (Raise ThrottleException,
        {| thr_cfg := thr_cfg o;
           thr_history := evict (now k) (period (thr_cfg o)) (thr_history o) |}, k).
Proof.
  intros Hr Hfull. simpl. rewrite (decide_reject _ _ _ Hr Hfull). reflexivity.
Qed.

(** The only exceptions of the admission loop are its own and those of its
    wait step. *)
Lemma call_loop_raises (fuel : nat) :
  (forall d k e k', sleep d k = (Raise e, k') -> e = CancelledError) ->
  forall (o : throttle_obj) (k : clock) (e : exn) o' k',
    call_loop sleep fuel o k = Some (Raise e, o', k') ->
    e = ThrottleException \/ e = CancelledError.
Proof.
  intros Hs. induction fuel as [|fuel IH]; intros o k e o' k'; simpl; [discriminate|].
  destruct (Calculator_decide _ _ _) as [h [|d|]].
  - discriminate.
  - destruct (sleep d k) as [[[]|e0] k0] eqn:Hsl.
    + apply IH.
    + intros H; injection H as <- _ _. right. eapply Hs, Hsl.
  - intros H; injection H as <- _ _. left. reflexivity.
Qed.

Lemma evict_length (t p : Z) (h : list Z) : (length (evict t p h) <= length h)%nat.
Proof. apply List.filter_length_le. Qed.

Lemma evict_evict_head (t t' p x : Z) (h rest : list Z) :
  evict t p h = x :: rest -> (x + p <= t')%Z ->
  (length (evict t' p (evict t p h)) < length (evict t p h))%nat.
Proof.
  intros -> Hle. simpl.
  destruct (Z.ltb_spec (t' - x) p); [lia|].
  pose proof (evict_length t' p rest). simpl. lia.
Qed.

(** The admission loop comes back: each wait lasts until the oldest
    timestamp leaves the window, so each further decision finds a
    shorter history. *)
Lemma call_loop_total (fuel : nat) :
  (forall d k k', sleep d k = (Return tt, k') -> (now k + d <= now k')%Z) ->
  forall (o : throttle_obj) (k : clock),
    (0 < calls (thr_cfg o))%Z ->
    (length (evict (now k) (period (thr_cfg o)) (thr_history o)) < fuel)%nat ->
    is_Some (call_loop sleep fuel o k).
Proof.
  intros Hs. induction fuel as [|fuel IH]; intros o k Hc Hlen; [lia|].
  simpl. unfold Calculator_decide.
  set (h' := evict (now k) (period (thr_cfg o)) (thr_history o)) in *.
  destruct (Z.ltb_spec (Z.of_nat (length h')) (calls (thr_cfg o))); [eauto|].
  destruct (raise_on_throttle (thr_cfg o)); [eauto|].
  destruct (sleep _ k) as [[[]|e0] k0] eqn:Hsl; [|eauto].
  apply IH; simpl; [exact Hc|].
  destruct h' as [|x rest] eqn:Hh; [simpl in *; lia|].
  apply Hs in Hsl. simpl in Hsl.
  assert (length (evict (now k0) (period (thr_cfg o)) h') < length h')%nat.
  { subst h'. eapply evict_evict_head; [exact Hh | lia]. }
  rewrite <- Hh. subst h'. rewrite Hh in *. simpl in *. lia.
Qed.

End SpecFacts.

Lemma time_sleep_lasts (d : Z) (k k' : clock) :
  Spec.time_sleep d k = (Return tt, k') -> (now k + d <= now k')%Z.
Proof. unfold Spec.time_sleep. intros H; injection H as <-. simpl. lia. Qed.

Lemma asyncio_sleep_lasts (d : Z) (k k' : clock) :
  Spec.asyncio_sleep d k = (Return tt, k') -> (now k + d <= now k')%Z.
Proof.
  unfold Spec.asyncio_sleep. destruct (cancel_requested k); [discriminate|].
  intros H; injection H as <-. simpl. lia.
Qed.

Lemma time_sleep_raises (d : Z) (k : clock) (e : exn) (k' : clock) :
  Spec.time_sleep d k = (Raise e, k') -> e = CancelledError.
Proof. discriminate. Qed.

Lemma asyncio_sleep_raises (d : Z) (k : clock) (e : exn) (k' : clock) :
  Spec.asyncio_sleep d k = (Raise e, k') -> e = CancelledError.
Proof.
  unfold Spec.asyncio_sleep. destruct (cancel_requested k); [|discriminate].
  intros H; injection H as <- _. reflexivity.
Qed.

(** Both call methods come back on a valid throttle with enough fuel for
    its history. *)
Lemma spec_call_total (fuel : nat) (cls : throttle_class) (o : throttle_obj) (k : clock) :
  (0 < calls (thr_cfg o))%Z -> (length (thr_history o) < fuel)%nat ->
  is_Some (call_of (Spec.Throttle_call fuel) (Spec.AsyncThrottle_call fuel) cls o k).
Proof.
  intros Hc Hlen.
  pose proof (evict_length (now k) (period (thr_cfg o)) (thr_history o)).
  destruct cls; simpl;
    [apply (call_loop_total _ _ time_sleep_lasts) | apply (call_loop_total _ _ asyncio_sleep_lasts)];
    auto; lia.
Qed.

Section SpecClaims.

Context {Args Res W : Type}.
Implicit Types (s : state Args Res W) (c : closure Args Res W) (a : Args).

(** C3.  With [calls <= 0] or [period <= 0] the decorator raises
    [ConfigurationError] when it is applied, out of the constructor of
    the throttle: no wrapper is returned, the store, the world and the
    trace are untouched, so no call of the guarded operation has been
    attempted.  Nothing is validated later: [thr.call()] never raises
    [ConfigurationError]. *)
Theorem invalid_configuration_rejected (n p : Z) (r : bool)
    (func : function Args Res W) s :
  (n <= 0 \/ p <= 0)%Z ->
  Spec.decorator n p r func s = Some (Raise ConfigurationError, s) /\
  forall (fuel : nat) (t : loc) σ (res : outcome unit) (σ' : state Args Res W),
    thr_call (Spec.Throttle_call fuel) (Spec.AsyncThrottle_call fuel) t σ = Some (res, σ') ->
    res <> Raise ConfigurationError.
Proof.
  intros Hbad. split.
  - apply decorator_raises. unfold Spec.init.
    assert (((n <=? 0) || (p <=? 0))%Z = true) as Hb
      by (apply orb_true_iff; destruct Hbad; [left|right]; apply Z.leb_le; assumption).
    destruct (class_for _); simpl; rewrite Hb; reflexivity.
  - intros fuel t σ res σ' H.
    destruct (thr_call_inv _ _ _ _ _ _ H) as (c & o & o' & k' & _ & Hc & _).
    intros ->. destruct c; simpl in Hc.
    + destruct (call_loop_raises _ fuel time_sleep_raises _ _ _ _ _ Hc); discriminate.
    + destruct (call_loop_raises _ fuel asyncio_sleep_raises _ _ _ _ _ Hc); discriminate.
Qed.

(** C4.  With [raise_on_throttle] set and the window full, a call of the
    wrapper raises [ThrottleException]; the guarded operation is not
    invoked: the trace of the call holds the acquire, the refused
    admission and the release, and the world is unchanged. *)
Theorem reject_skips_operation (fuel : nat) c a s (k : lock_obj)
    (cls : throttle_class) (o : throttle_obj) :
  (0 < fuel)%nat ->
  locks s !! cl_lock c = Some k -> lock_ready k = true ->
  thrs s !! cl_thr c = Some (cls, o) ->
  raise_on_throttle (thr_cfg o) = true ->
  Spec.window_full o (now (clk s)) ->
  exists s',
    Spec.wrapper fuel c a s = Some (Raise ThrottleException, s') /\
    world s' = world s /\
    trace s' = trace s ++ [EvAcquire (cl_lock c);
                            EvThrCall (cl_thr c) (Raise ThrottleException);
                            EvRelease (cl_lock c)] /\
    locks s' = locks s.
Proof.
  intros Hf Hl Hr Ht Hraise Hfull.
  destruct fuel as [|fuel]; [lia|].
  assert (Hc : exists o', call_of (Spec.Throttle_call (S fuel)) (Spec.AsyncThrottle_call (S fuel))
                 cls o (clk s) = Some (Raise ThrottleException, o', clk s)).
  { destruct cls; eexists; apply call_loop_reject; assumption. }
  destruct Hc as [o' Hc]. unfold Spec.wrapper.
  rewrite (wrapper_run _ _ c a k cls o o' (clk s) _ s Hl Hr Ht Hc).
  eexists. split; [reflexivity|]. repeat split.
Qed.

End SpecClaims.

(** ** Several callers: the lock serialises admission *)

Section Serialisation.

Import Concurrent.

Lemma lookup_set_pc (σ : sys) (i j : nat) (p q : pc) :
  s_pcs (set_pc i p σ) !! j = Some q ->
  (j = i /\ q = p) \/ (j <> i /\ s_pcs σ !! j = Some q).
Proof.
  simpl. intros H. destruct (Nat.eq_dec j i) as [->|Hne].
  - left. split; [reflexivity|].
    assert (i < length (s_pcs σ))%nat as Hlt.
    { apply lookup_lt_Some in H. rewrite length_insert in H. exact H. }
    rewrite list_lookup_insert_eq in H by exact Hlt. congruence.
  - right. split; [exact Hne|]. rewrite list_lookup_insert_ne in H by congruence. exact H.
Qed.

Lemma init_inv (async : bool) (o : throttle_obj) (n : nat) : guard_inv (init async o n).
Proof.
  intros i p H. simpl in H. apply lookup_replicate in H as [-> _]. discriminate.
Qed.

(** A step that moves caller [i] to [p] and leaves the lock alone keeps
    the invariant when [i] already held the lock or [p] is outside the
    block. *)
Lemma set_pc_inv (σ : sys) (i : nat) (p : pc) :
  guard_inv σ -> (in_guard p = true -> s_lock σ = Some i) -> guard_inv (set_pc i p σ).
Proof.
  intros HI Hp j q Hj Hq.
  destruct (lookup_set_pc _ _ _ _ _ Hj) as [[-> ->]|[_ Hold]]; [auto|].
  exact (HI j q Hold Hq).
Qed.

Lemma run_caller_inv (i : nat) (σ σ' : sys) (evs : list cevent) :
  guard_inv σ -> run_caller i σ = Some (σ', evs) -> guard_inv σ'.
Proof.
  intros HI. unfold run_caller.
  destruct (s_pcs σ !! i) as [[| |u|r| |e]|] eqn:Hi; try discriminate.
  - (* acquire *)
    destruct (s_lock σ) as [j|] eqn:Hlk; [discriminate|].
    intros H; injection H as <- _. intros j q Hj Hq.
    destruct (lookup_set_pc _ _ _ _ _ Hj) as [[-> ->]|[_ Hold]]; [reflexivity|].
    simpl in Hold. pose proof (HI j q Hold Hq). congruence.
  - (* decide *)
    destruct (Spec.Calculator_decide _ _ _) as [h d].
    intros H; injection H as <- _.
    apply set_pc_inv; [|intros _; simpl; exact (HI i Deciding Hi eq_refl)].
    intros j q Hj Hq. exact (HI j q Hj Hq).
  - (* wake *)
    destruct (u <=? s_now σ)%Z; [|discriminate].
    intros H; injection H as <- _.
    apply set_pc_inv; [exact HI | intros _; exact (HI i (Waiting u) Hi eq_refl)].
  - (* release *)
    destruct (s_lock σ) as [j|] eqn:Hlk; [|discriminate].
    destruct (Nat.eqb_spec i j) as [<-|]; [|discriminate].
    intros H; injection H as <- _. intros j q Hj Hq.
    destruct (lookup_set_pc _ _ _ _ _ Hj) as [[-> ->]|[Hne Hold]].
    + destruct r; discriminate.
    + simpl in Hold. pose proof (HI j q Hold Hq). congruence.
  - (* invoke *)
    intros H; injection H as <- _. apply set_pc_inv; [exact HI | discriminate].
Qed.

Lemma step_inv (l : label) (σ σ' : sys) (evs : list cevent) :
  guard_inv σ -> step σ l = Some (σ', evs) -> guard_inv σ'.
Proof.
  intros HI. destruct l as [i|d|i|i]; simpl.
  - apply run_caller_inv, HI.
  - destruct (0 <=? d)%Z; [|discriminate]. intros H; injection H as <- _. exact HI.
  - unfold cancel_caller. destruct (s_async σ); [|discriminate].
    destruct (s_pcs σ !! i) as [[| |u|r| |e]|] eqn:Hi; try discriminate;
      intros H; injection H as <- _; apply set_pc_inv; try exact HI.
    + discriminate.
    + intros _. exact (HI i (Waiting u) Hi eq_refl).
  - destruct (s_pcs σ !! i) as [[| |u|r| |e]|] eqn:Hi; try discriminate.
    intros H; injection H as <- _. apply set_pc_inv; [exact HI | discriminate].
Qed.

(** Acquisitions and releases alternate: a step turns the holder and the
    acquisitions into the releases and the new holder. *)
Lemma step_order (l : label) (σ σ' : sys) (evs : list cevent) :
  step σ l = Some (σ', evs) ->
  holder σ ++ acquired evs = released evs ++ holder σ'.
Proof.
  destruct l as [i|d|i|i]; simpl.
  - unfold run_caller, holder.
    destruct (s_pcs σ !! i) as [[| |u|r| |e]|] eqn:Hi; try discriminate.
    + destruct (s_lock σ) as [j|] eqn:Hlk; [discriminate|].
      intros H; injection H as <- <-. reflexivity.
    + destruct (Spec.Calculator_decide _ _ _) as [h d].
      intros H; injection H as <- <-. simpl. apply app_nil_r.
    + destruct (u <=? s_now σ)%Z; [|discriminate].
      intros H; injection H as <- <-. simpl. apply app_nil_r.
    + destruct (s_lock σ) as [j|] eqn:Hlk; [|discriminate].
      destruct (Nat.eqb_spec i j) as [<-|]; [|discriminate].
      intros H; injection H as <- <-. reflexivity.
    + intros H; injection H as <- <-. simpl. apply app_nil_r.
  - destruct (0 <=? d)%Z; [|discriminate].
    intros H; injection H as <- <-. apply app_nil_r.
  - unfold cancel_caller, holder. destruct (s_async σ); [|discriminate].
    destruct (s_pcs σ !! i) as [[| |u|r| |e]|] eqn:Hi; try discriminate;
      intros H; injection H as <- <-; simpl; apply app_nil_r.
  - unfold holder. destruct (s_pcs σ !! i) as [[| |u|r| |e]|] eqn:Hi; try discriminate.
    intros H; injection H as <- <-. simpl. apply app_nil_r.
Qed.

Lemma run_inv (ls : list label) :
  forall (σ σ' : sys) (evs : list cevent),
    guard_inv σ -> run σ ls = Some (σ', evs) ->
    guard_inv σ' /\ holder σ ++ acquired evs = released evs ++ holder σ'.
Proof.
  induction ls as [|l ls IH]; intros σ σ' evs HI; simpl.
  - intros H; injection H as <- <-. split; [exact HI|]. simpl. apply app_nil_r.
  - destruct (step σ l) as [[σ1 e1]|] eqn:Hs; [|discriminate].
    destruct (run σ1 ls) as [[σ2 e2]|] eqn:Hr; [|discriminate].
    intros H; injection H as <- <-.
    destruct (IH _ _ _ (step_inv _ _ _ _ HI Hs) Hr) as [HI2 Ho2].
    split; [exact HI2|].
    assert (Ha : acquired (e1 ++ e2) = acquired e1 ++ acquired e2) by apply omap_app.
    assert (Hd : released (e1 ++ e2) = released e1 ++ released e2) by apply omap_app.
    rewrite Ha, Hd, app_assoc, (step_order _ _ _ _ Hs), <- !app_assoc.
    f_equal. exact Ho2.
Qed.

(** C2.  In every state that callers of one wrapper can reach, whatever
    the scheduling: a caller that is deciding, waiting or about to leave
    the [with] block holds the lock, and has held it since it acquired
    it, waits included; no two callers are inside the block at once; and
    the callers left the block in the order in which they acquired the
    lock. *)
Theorem guard_serialises_admission (async : bool) (o : throttle_obj) (n : nat)
    (ls : list label) (σ : sys) (evs : list cevent) :
  run (init async o n) ls = Some (σ, evs) ->
  (forall i p, s_pcs σ !! i = Some p -> in_guard p = true -> s_lock σ = Some i) /\
  (forall i j p q,
     s_pcs σ !! i = Some p -> s_pcs σ !! j = Some q ->
     in_guard p = true -> in_guard q = true -> i = j) /\
  acquired evs = released evs ++ holder σ.
Proof.
  intros H. destruct (run_inv ls _ _ _ (init_inv async o n) H) as [HI Ho].
  split; [exact HI|]. split; [|exact Ho].
  intros i j p q Hi Hj Hp Hq.
  pose proof (HI i p Hi Hp) as Li. pose proof (HI j q Hj Hq) as Lj. congruence.
Qed.

End Serialisation.

(** ** The statements at work *)

(** C1, as the specification words it, fails: [throttle(1, 1000, False)]
    gives [bump] the blocking wrapper and [fetch] the suspending one, so
    the arguments of the construction do not fix the variant. *)
Lemma variant_not_chosen_at_construction :
  ~ variant_chosen_at_construction nat nat (list nat) Spec.init Spec.init.
Proof.
  intros H. destruct (H 1%Z 1000%Z false) as [code Hcode].
  pose proof (Hcode Demo.bump Demo.s0 _ _ eq_refl) as Hb.
  pose proof (Hcode Demo.fetch Demo.s0 _ _ eq_refl) as Hf.
  simpl in Hb, Hf. congruence.
Qed.

Lemma variant_chosen_by_inspection_witness :
  exists w s',
    throttle Spec.init Spec.init 1 1000 false Demo.fetch Demo.s0 = Some (Return w, s') /\
    cl_code w = AsyncWrapper /\
    thr_class_at w s' = Some AsyncThrottleCls /\
    lock_at w s' = Some (AsyncLock false).
Proof.
  eexists _, _. split; [reflexivity|].
  exact (variant_chosen_by_inspection Spec.init Spec.init 1 1000 false
           Demo.fetch Demo.s0 _ _ eq_refl).
Defined.

Lemma guard_serialises_admission_witness :
  exists σ evs,
    Concurrent.run (Concurrent.init false (Demo.thr0 false) 2) Demo.schedule = Some (σ, evs) /\
    Concurrent.s_lock σ = Some 1 /\
    Concurrent.acquired evs = Concurrent.released evs ++ Concurrent.holder σ.
Proof.
  eexists _, _. split; [reflexivity|].
  destruct (guard_serialises_admission false (Demo.thr0 false) 2 Demo.schedule _ _ eq_refl)
    as (Hheld & _ & Horder).
  split; [|exact Horder].
  apply (Hheld 1 (Concurrent.Waiting 1000)); reflexivity.
Defined.

Lemma invalid_configuration_rejected_witness :
  (0 <= 0 \/ 1000 <= 0)%Z /\
  Spec.decorator 0 1000 false Demo.bump Demo.s0 = Some (Raise ConfigurationError, Demo.s0).
Proof.
  assert (0 <= 0 \/ 1000 <= 0)%Z as Hbad by (left; lia).
  split; [exact Hbad|].
  exact (proj1 (invalid_configuration_rejected 0 1000 false Demo.bump Demo.s0 Hbad)).
Defined.

(** Section 8 of the specification: [calls=1], reject mode on, and a
    second call at once. *)
Lemma reject_skips_operation_witness :
  exists r1 s1,
    Spec.wrapper 1 Demo.w_bump 7 (Demo.s_bump true) = Some (r1, s1) /\
    r1 = Return 8 /\ world s1 = [7] /\
    exists s2,
      Spec.wrapper 1 Demo.w_bump 9 s1 = Some (Raise ThrottleException, s2) /\
      world s2 = [7].
Proof.
  eexists _, _. split; [reflexivity|]. split; [reflexivity|]. split; [reflexivity|].
  match goal with
  | |- exists s2, Spec.wrapper _ _ _ ?s1 = _ /\ _ =>
      destruct (reject_skips_operation 1 Demo.w_bump 9 s1 (RLock 0) ThrottleCls
                  {| thr_cfg := thr_cfg (Demo.thr0 true); thr_history := [0%Z] |}
                  ltac:(lia) eq_refl eq_refl eq_refl eq_refl
                  ltac:(unfold Spec.window_full; simpl; lia))
        as (s2 & Hcall & Hworld & _ & _)
  end.
  exists s2. split; [exact Hcall | exact Hworld].
Defined.

Lemma wrapper_control_flow_witness :
  exists res s',
    Spec.wrapper 2 Demo.w_bump 7 (Demo.s_bump false) = Some (res, s') /\
    exists (r : outcome unit) s1,
      with_ 0 (thr_call (Spec.Throttle_call 2) (Spec.AsyncThrottle_call 2) 0)
        (Demo.s_bump false) = Some (r, s1) /\
      locks s1 = locks (Demo.s_bump false).
Proof.
  eexists _, _. split; [reflexivity|].
  destruct (wrapper_control_flow (Spec.Throttle_call 2) (Spec.AsyncThrottle_call 2)
              Demo.w_bump 7 (Demo.s_bump false) _ _ eq_refl)
    as (r & s1 & Hw & _ & Hl & _).
  exists r, s1. split; [exact Hw | exact Hl].
Defined.

Lemma wrapper_transparent_witness :
  (exists s', Spec.wrapper 2 Demo.w_bump 7 (Demo.s_bump false) = Some (Return 8, s') /\
              world s' = [7]) /\
  (exists s', Spec.wrapper 2 (wraps Demo.boom (def_wrapper SyncWrapper Demo.boom 0 0)) 7
                (Demo.s_bump false) = Some (Raise (OtherError "boom"), s')).
Proof.
  split.
  - edestruct (wrapper_transparent (Spec.Throttle_call 2) (Spec.AsyncThrottle_call 2)
                 Demo.w_bump 7 (Demo.s_bump false)) as (s' & Hcall & Hworld & _);
      [reflexivity | reflexivity | reflexivity | reflexivity |].
    exists s'. split; [exact Hcall | exact Hworld].
  - edestruct (wrapper_transparent (Spec.Throttle_call 2) (Spec.AsyncThrottle_call 2)
                 (wraps Demo.boom (def_wrapper SyncWrapper Demo.boom 0 0)) 7
                 (Demo.s_bump false)) as (s' & Hcall & _);
      [reflexivity | reflexivity | reflexivity | reflexivity |].
    exists s'. exact Hcall.
Defined.

Lemma independent_throttle_state_witness :
  exists w1 s1 w2 s2,
    Spec.decorator 1 1000 false Demo.bump Demo.s0 = Some (Return w1, s1) /\
    Spec.decorator 3 1000 true Demo.fetch s1 = Some (Return w2, s2) /\
    cl_thr w1 <> cl_thr w2 /\ cl_lock w1 <> cl_lock w2.
Proof.
  eexists _, _, _, _. split; [reflexivity|]. split; [reflexivity|].
  refine (proj1 (proj2 (independent_throttle_state Spec.init Spec.init
            (Spec.Throttle_call 2) (Spec.AsyncThrottle_call 2)
            1 1000 false Demo.bump Demo.s0 _ _
            3 1000 true Demo.fetch _ _ _ eq_refl _ _ eq_refl)));
    eexists; reflexivity.
Defined.

Lemma decorator_preserves_kind_witness :
  exists w s',
    Spec.decorator 1 1000 false Demo.fetch Demo.s0 = Some (Return w, s') /\
    closure_iscoroutine w = true /\
    thr_class_at w s' = Some AsyncThrottleCls.
Proof.
  eexists _, _. split; [reflexivity|].
  destruct (decorator_preserves_kind Spec.init Spec.init
              (Spec.Throttle_call 2) (Spec.AsyncThrottle_call 2)
              1 1000 false Demo.fetch Demo.s0 _ _ eq_refl) as (Hk & Ha & _).
  split; [exact Hk | exact (proj1 (Ha eq_refl))].
Defined.

(** A task cancelled in the wait step of [thr.call()]. *)
Lemma guard_released_on_raise_witness :
  exists s',
    Spec.wrapper 2 Demo.w_fetch 7 Demo.s_fetch_busy = Some (Raise CancelledError, s') /\
    locks s' = locks Demo.s_fetch_busy /\
    world s' = [].
Proof.
  edestruct (guard_released_on_raise (Spec.Throttle_call 2) (Spec.AsyncThrottle_call 2)
               Demo.w_fetch 7 Demo.s_fetch_busy) as (s' & Hcall & Hl & _ & Hworld & _);
    [reflexivity | reflexivity | reflexivity | reflexivity |].
  exists s'. split; [exact Hcall|]. split; [exact Hl | exact Hworld].
Defined.

Lemma wrapper_carries_metadata_witness :
  exists w s',
    Spec.decorator 1 1000 false Demo.bump Demo.s0 = Some (Return w, s') /\
    __name__ (cl_meta w) = "bump" /\
    __doc__ (cl_meta w) = Some "Record n, return its successor." /\
    cl_wrapped w = Some Demo.bump.
Proof.
  eexists _, _. split; [reflexivity|].
  destruct (wrapper_carries_metadata Spec.init Spec.init 1 1000 false Demo.bump Demo.s0
              _ _ eq_refl) as (_ & Hn & Hd & Hw).
  split; [exact Hn|]. split; [exact Hd | exact Hw].
Defined.


(** ** The specification's classes at work *)

(** A call of a wrapper over the specification's classes comes back when
    the lock can be taken, the configuration is valid and the fuel exceeds
    the length of the history. *)
Lemma spec_wrapper_total {Args Res W : Type} (fuel : nat) (c : closure Args Res W)
    (a : Args) (s : state Args Res W) (k : lock_obj) (cls : throttle_class)
    (o : throttle_obj) :
  locks s !! cl_lock c = Some k -> lock_ready k = true ->
  thrs s !! cl_thr c = Some (cls, o) ->
  (0 < calls (thr_cfg o))%Z -> (length (thr_history o) < fuel)%nat ->
  is_Some (Spec.wrapper fuel c a s).
Proof.
  intros Hl Hr Ht Hc Hlen.
  destruct (spec_call_total fuel cls o (clk s) Hc Hlen) as [[[r o'] k'] Hcall].
  unfold Spec.wrapper. rewrite (wrapper_run _ _ c a k cls o o' k' r s Hl Hr Ht Hcall).
  destruct r; [rewrite invoke_run|]; eauto.
Qed.

(** Section 8 of the specification: [calls=3], [period] of 1000 ticks, four
    calls at time 0.  Three go through at once; the fourth comes back at
    time 1000, when the first has left the window. *)
Example four_calls_at_once :
  let o0 := {| thr_cfg := {| calls := 3; period := 1000; raise_on_throttle := false |};
               thr_history := [] |} in
  let k0 := {| now := 0; cancel_requested := false |} in
  exists o1 o2 o3 o4 k4,
    Spec.Throttle_call 2 o0 k0 = Some (Return tt, o1, k0) /\
    Spec.Throttle_call 2 o1 k0 = Some (Return tt, o2, k0) /\
    Spec.Throttle_call 2 o2 k0 = Some (Return tt, o3, k0) /\
    Spec.Throttle_call 2 o3 k0 = Some (Return tt, o4, k4) /\
    now k4 = 1000%Z /\ thr_history o4 = [1000%Z].
Proof. eexists _, _, _, _, _. repeat split; reflexivity. Qed.

(** The wrapper of the coroutine function [fetch], awaited once. *)
Example fetch_once :
  exists s',
    Spec.wrapper 2 Demo.w_fetch 7 (Demo.s_fetch false false) = Some (Return 14, s') /\
    world s' = [7] /\
    locks s' !! 0 = Some (AsyncLock false).
Proof. eexists. repeat split; reflexivity. Qed.

(** One loop iteration is not enough for a caller that has to wait. *)
Example wait_needs_two_decisions :
  let o := {| thr_cfg := {| calls := 1; period := 1000; raise_on_throttle := false |};
              thr_history := [0%Z] |} in
  let k := {| now := 10; cancel_requested := false |} in
  Spec.Throttle_call 1 o k = None /\
  exists o', Spec.Throttle_call 2 o k
             = Some (Return tt, o', {| now := 1000; cancel_requested := false |}).
Proof. split; [reflexivity | eexists; reflexivity]. Qed.


(** * Further properties of decorators.py *)

(** ** Decoration *)

Section Decoration.

Context {Args Res W : Type}.
Variables Ti Ai : ctor.
Variables TC AC : method.

Implicit Types (s : state Args Res W) (c w : closure Args Res W) (a : Args).
Implicit Types (func : function Args Res W).

(** The whole of [decorator] in one equation: the constructor of the class
    chosen for [func] decides between the two ways out. *)
Lemma decorator_cases (n p : Z) (r : bool) func s :
  decorator Ti Ai n p r func s =
  match init_of Ti Ai (class_for (fn_iscoroutine func)) n p r with
  | Return o =>
      Some (Return (wraps func (def_wrapper (code_for (fn_iscoroutine func)) func
                                  (fresh (dom (thrs s))) (fresh (dom (locks s))))),
            set_locks (<[fresh (dom (locks s)) := lock_for (fn_iscoroutine func)]> (locks s))
              (set_thrs (<[fresh (dom (thrs s)) :=
                            (class_for (fn_iscoroutine func), o)]> (thrs s)) s))
  | Raise e => Some (Raise e, s)
  end.
Proof.
  unfold decorator, asyncio_iscoroutinefunction, bind, new, asyncio_Lock, threading_RLock, ret.
  destruct (fn_iscoroutine func); simpl.
  - destruct (Ai n p r); reflexivity.
  - destruct (Ti n p r); reflexivity.
Qed.

(** X1.  Applying the decorator never calls the guarded operation or the
    throttle: the world, the trace and the clock are untouched, and so is
    every throttle object and lock that existed.  If the constructor
    raises, the decorator raises the same exception and has created
    nothing, not even the lock; otherwise the closure refers to the
    function it was given, to the object the constructor returned for the
    arguments of [throttle], and to a lock that can be taken. *)
Theorem decoration_is_quiet (n p : Z) (r : bool) func s
    (res : outcome (closure Args Res W)) s' :
  decorator Ti Ai n p r func s = Some (res, s') ->
  world s' = world s /\ trace s' = trace s /\ clk s' = clk s /\
  (forall t x, thrs s !! t = Some x -> thrs s' !! t = Some x) /\
  (forall l k, locks s !! l = Some k -> locks s' !! l = Some k) /\
  match res with
  | Raise e =>
      s' = s /\ init_of Ti Ai (class_for (fn_iscoroutine func)) n p r = Raise e
  | Return w =>
      cl_func w = func /\
      (exists o, init_of Ti Ai (class_for (fn_iscoroutine func)) n p r = Return o /\
                 thrs s' !! cl_thr w = Some (class_for (fn_iscoroutine func), o)) /\
      (exists k, locks s' !! cl_lock w = Some k /\ lock_ready k = true)
  end.
Proof.
  rewrite decorator_cases.
  destruct (init_of Ti Ai _ n p r) as [o|e] eqn:Hi; intros H; injection H as <- <-.
  - simpl. repeat (split; [reflexivity|]).
    split; [|split; [|split; [reflexivity|split]]].
    + intros t x Ht. rewrite lookup_insert_ne; [exact Ht|].
      intros <-. apply (is_fresh (dom (thrs s))), elem_of_dom. eauto.
    + intros l k Hl. rewrite lookup_insert_ne; [exact Hl|].
      intros <-. apply (is_fresh (dom (locks s))), elem_of_dom. eauto.
    + exists o. split; [reflexivity | apply lookup_insert_eq].
    + exists (lock_for (fn_iscoroutine func)). split; [apply lookup_insert_eq|].
      destruct (fn_iscoroutine func); reflexivity.
  - repeat (split; [reflexivity|]). repeat split; auto.
Qed.

(** X2.  One decorator used twice.  When [throttle(calls, period, flag)]
    has decorated [f], decorating [g], a callable of the same kind, with
    the same decorator succeeds as well and runs the constructor anew: the
    two wrappers refer to different throttle objects and different locks,
    which start out with equal contents.  The budget belongs to the
    decorated function, not to the decorator. *)
Theorem decorator_reuse (n p : Z) (r : bool) (f g : function Args Res W) s0 w1 s1 :
  throttle Ti Ai n p r f s0 = Some (Return w1, s1) ->
  fn_iscoroutine g = fn_iscoroutine f ->
  exists w2 s2,
    throttle Ti Ai n p r g s1 = Some (Return w2, s2) /\
    cl_thr w1 <> cl_thr w2 /\ cl_lock w1 <> cl_lock w2 /\
    cl_code w2 = cl_code w1 /\
    thrs s2 !! cl_thr w2 = thrs s2 !! cl_thr w1 /\
    locks s2 !! cl_lock w2 = locks s2 !! cl_lock w1 /\
    thrs s2 !! cl_thr w1 = thrs s1 !! cl_thr w1 /\
    locks s2 !! cl_lock w1 = locks s1 !! cl_lock w1.
Proof.
  unfold throttle. intros H1 Hk.
  destruct (decorator_inv Ti Ai _ _ _ _ _ _ _ H1) as (o & Hi & -> & ->).
  rewrite (decorator_cases n p r g), Hk, Hi. eexists _, _. split; [reflexivity|].
  simpl.
  assert (Ht : fresh (dom (thrs s0)) <>
               fresh (dom (<[fresh (dom (thrs s0)) :=
                              (class_for (fn_iscoroutine f), o)]> (thrs s0)))).
  { intros E.
    apply (is_fresh (dom (<[fresh (dom (thrs s0)) :=
                             (class_for (fn_iscoroutine f), o)]> (thrs s0)))).
    rewrite <- E. apply elem_of_dom. rewrite lookup_insert_eq. eauto. }
  assert (Hl : fresh (dom (locks s0)) <>
               fresh (dom (<[fresh (dom (locks s0)) :=
                              lock_for (fn_iscoroutine f)]> (locks s0)))).
  { intros E.
    apply (is_fresh (dom (<[fresh (dom (locks s0)) :=
                             lock_for (fn_iscoroutine f)]> (locks s0)))).
    rewrite <- E. apply elem_of_dom. rewrite lookup_insert_eq. eauto. }
  split; [exact Ht|]. split; [exact Hl|]. split; [reflexivity|].
  rewrite !lookup_insert_eq, !(lookup_insert_ne _ _ _ _ (not_eq_sym Ht)),
    !(lookup_insert_ne _ _ _ _ (not_eq_sym Hl)), !lookup_insert_eq.
  repeat split.
Qed.


End Decoration.

(** ** Several callers: who holds the lock, and who runs the operation *)

Section LockDiscipline.

Import Concurrent.

Lemma lookup_set_pc_eq (σ : sys) (i : nat) (p q : pc) :
  s_pcs σ !! i = Some q -> s_pcs (set_pc i p σ) !! i = Some p.
Proof.
  intros H. simpl. apply list_lookup_insert_eq. eapply lookup_lt_Some, H.
Qed.

Lemma lookup_set_pc_ne (σ : sys) (i j : nat) (p : pc) :
  i <> j -> s_pcs (set_pc i p σ) !! j = s_pcs σ !! j.
Proof. intros H. simpl. apply list_lookup_insert_ne. exact H. Qed.

(** Moving caller [i], with the lock left alone, keeps the holder inside
    the block when [i] does not leave the block. *)
Lemma set_pc_holder (σ : sys) (i : nat) (p q : pc) :
  holder_inv σ -> s_pcs σ !! i = Some q ->
  (in_guard q = true -> in_guard p = true) -> holder_inv (set_pc i p σ).
Proof.
  intros HI Hi Himp h Hh. destruct (HI h Hh) as (ph & Hph & Hg).
  destruct (Nat.eq_dec i h) as [<-|Hne].
  - exists p. split; [eapply lookup_set_pc_eq, Hi|]. apply Himp. congruence.
  - exists ph. split; [|exact Hg]. rewrite lookup_set_pc_ne by exact Hne. exact Hph.
Qed.

Lemma step_holder_inv (l : label) (σ σ' : sys) (evs : list cevent) :
  holder_inv σ -> step σ l = Some (σ', evs) -> holder_inv σ'.
Proof.
  intros HI. destruct l as [i|d|i|i]; simpl.
  - unfold run_caller.
    destruct (s_pcs σ !! i) as [[| |u|r| |e]|] eqn:Hi; try discriminate.
    + destruct (s_lock σ) as [j|] eqn:Hlk; [discriminate|].
      intros H; injection H as <- _. intros h Hh. simpl in Hh. injection Hh as <-.
      exists Deciding. split; [|reflexivity]. eapply lookup_set_pc_eq. exact Hi.
    + destruct (Spec.Calculator_decide _ _ _) as [h d].
      intros H; injection H as <- _.
      eapply set_pc_holder; [exact HI | exact Hi | intros _; destruct d; reflexivity].
    + destruct (u <=? s_now σ)%Z; [|discriminate].
      intros H; injection H as <- _.
      eapply set_pc_holder; [exact HI | exact Hi | reflexivity].
    + destruct (s_lock σ) as [j|] eqn:Hlk; [|discriminate].
      destruct (Nat.eqb_spec i j) as [<-|]; [|discriminate].
      intros H; injection H as <- _. intros h Hh. discriminate Hh.
    + intros H; injection H as <- _.
      eapply set_pc_holder; [exact HI | exact Hi | discriminate].
  - destruct (0 <=? d)%Z; [|discriminate]. intros H; injection H as <- _. exact HI.
  - unfold cancel_caller. destruct (s_async σ); [|discriminate].
    destruct (s_pcs σ !! i) as [[| |u|r| |e]|] eqn:Hi; try discriminate;
      intros H; injection H as <- _;
      (eapply set_pc_holder; [exact HI | exact Hi |]); [discriminate | reflexivity].
  - destruct (s_pcs σ !! i) as [[| |u|r| |e]|] eqn:Hi; try discriminate.
    intros H; injection H as <- _.
    eapply set_pc_holder; [exact HI | exact Hi | discriminate].
Qed.

Lemma run_holder_inv (ls : list label) :
  forall (σ σ' : sys) (evs : list cevent),
    holder_inv σ -> run σ ls = Some (σ', evs) -> holder_inv σ'.
Proof.
  induction ls as [|l ls IH]; intros σ σ' evs HI; simpl.
  - intros H; injection H as <- _. exact HI.
  - destruct (step σ l) as [[σ1 e1]|] eqn:Hs; [|discriminate].
    destruct (run σ1 ls) as [[σ2 e2]|] eqn:Hr; [|discriminate].
    intros H; injection H as <- _.
    exact (IH _ _ _ (step_holder_inv _ _ _ _ HI Hs) Hr).
Qed.

Lemma init_holder_inv (async : bool) (o : throttle_obj) (n : nat) :
  holder_inv (init async o n).
Proof. intros i Hi. discriminate Hi. Qed.



Lemma times_app (i : nat) (l1 l2 : list nat) :
  times i (l1 ++ l2) = (times i l1 + times i l2)%nat.
Proof. apply count_occ_app. Qed.

Lemma times_one (i j : nat) : times i [j] = if Nat.eq_dec j i then 1%nat else 0%nat.
Proof. unfold times. simpl. destruct (Nat.eq_dec j i); reflexivity. Qed.

Lemma at_func_set_pc_eq (σ : sys) (i : nat) (p q : pc) :
  s_pcs σ !! i = Some q ->
  at_func (set_pc i p σ) i = match p with Calling => 1%nat | _ => 0%nat end.
Proof. intros H. unfold at_func. rewrite (lookup_set_pc_eq _ _ _ _ H). reflexivity. Qed.

Lemma at_func_set_pc_ne (σ : sys) (i j : nat) (p : pc) :
  i <> j -> at_func (set_pc i p σ) j = at_func σ j.
Proof. intros H. unfold at_func. rewrite (lookup_set_pc_ne _ _ _ _ H). reflexivity. Qed.

(** A step invokes the operation for caller [i] only if [i] stood past the
    block, and puts [i] there only by a release of [i]. *)
Lemma step_invoked (i : nat) (l : label) (σ σ' : sys) (evs : list cevent) :
  step σ l = Some (σ', evs) ->
  (times i (invoked evs) + at_func σ' i <= times i (released evs) + at_func σ i)%nat.
Proof.
  assert (Hmove : forall (σ0 : sys) (j : nat) (p q : pc) (ni nr : nat),
            s_pcs σ0 !! j = Some q ->
            (j = i -> ni + match p with Calling => 1 | _ => 0 end
                      <= nr + match q with Calling => 1 | _ => 0 end)%nat ->
            (j <> i -> ni = 0 /\ nr = 0)%nat ->
            (ni + at_func (set_pc j p σ0) i <= nr + at_func σ0 i)%nat).
  { intros σ0 j p q ni nr Hj Heq Hne. destruct (Nat.eq_dec j i) as [->|Hd].
    - rewrite (at_func_set_pc_eq _ _ _ _ Hj). unfold at_func at 1. rewrite Hj.
      apply Heq. reflexivity.
    - rewrite (at_func_set_pc_ne _ _ _ _ Hd). destruct (Hne Hd) as [-> ->]. lia. }
  destruct l as [j|d|j|j]; simpl.
  - unfold run_caller.
    destruct (s_pcs σ !! j) as [[| |u|r| |e]|] eqn:Hj; try discriminate.
    + destruct (s_lock σ) as [h|] eqn:Hlk; [discriminate|].
      intros H; injection H as <- <-.
      apply (Hmove (set_lock (Some j) σ) j Deciding Entry); [exact Hj | simpl; lia | auto].
    + destruct (Spec.Calculator_decide _ _ _) as [h d].
      intros H; injection H as <- <-.
      apply (Hmove (set_thr {| thr_cfg := thr_cfg (s_thr σ); thr_history := h |} σ)
               j _ Deciding); [exact Hj | destruct d; simpl; lia | auto].
    + destruct (u <=? s_now σ)%Z; [|discriminate].
      intros H; injection H as <- <-.
      apply (Hmove σ j Deciding (Waiting u)); [exact Hj | simpl; lia | auto].
    + destruct (s_lock σ) as [h|] eqn:Hlk; [|discriminate].
      destruct (Nat.eqb_spec j h) as [<-|]; [|discriminate].
      intros H; injection H as <- <-.
      change (invoked [CRelease j]) with (@nil nat).
      change (released [CRelease j]) with [j]. rewrite times_one.
      eapply (Hmove (set_lock None σ) j _ (Leaving r)); [exact Hj | |].
      * intros ->. destruct (Nat.eq_dec i i); [|congruence]. destruct r; simpl; lia.
      * intros Hd. destruct (Nat.eq_dec j i); [congruence|]. auto.
    + intros H; injection H as <- <-.
      change (invoked [CInvoke j]) with [j].
      change (released [CInvoke j]) with (@nil nat). rewrite times_one.
      eapply (Hmove σ j _ Calling); [exact Hj | |].
      * intros ->. destruct (Nat.eq_dec i i); [|congruence]. simpl. lia.
      * intros Hd. destruct (Nat.eq_dec j i); [congruence|]. auto.
  - destruct (0 <=? d)%Z; [|discriminate]. intros H; injection H as <- <-. simpl.
    unfold at_func. simpl. lia.
  - unfold cancel_caller. destruct (s_async σ); [|discriminate].
    destruct (s_pcs σ !! j) as [[| |u|r| |e]|] eqn:Hj; try discriminate;
      intros H; injection H as <- <-.
    + apply (Hmove σ j _ Entry); [exact Hj | simpl; lia | auto].
    + apply (Hmove σ j _ (Waiting u)); [exact Hj | simpl; lia | auto].
  - destruct (s_pcs σ !! j) as [[| |u|r| |e]|] eqn:Hj; try discriminate.
    intros H; injection H as <- <-.
    apply (Hmove σ j Entry (Finished e)); [exact Hj | simpl; lia | auto].
Qed.

Lemma run_invoked (i : nat) (ls : list label) :
  forall (σ σ' : sys) (evs : list cevent),
    run σ ls = Some (σ', evs) ->
    (times i (invoked evs) + at_func σ' i <= times i (released evs) + at_func σ i)%nat.
Proof.
  induction ls as [|l ls IH]; intros σ σ' evs; simpl.
  - intros H; injection H as <- <-. simpl. lia.
  - destruct (step σ l) as [[σ1 e1]|] eqn:Hs; [|discriminate].
    destruct (run σ1 ls) as [[σ2 e2]|] eqn:Hr; [|discriminate].
    intros H; injection H as <- <-.
    pose proof (step_invoked i _ _ _ _ Hs). pose proof (IH _ _ _ Hr).
    assert (Ha : invoked (e1 ++ e2) = invoked e1 ++ invoked e2) by apply omap_app.
    assert (Hd : released (e1 ++ e2) = released e1 ++ released e2) by apply omap_app.
    rewrite Ha, Hd, !times_app. lia.
Qed.

(** X5.  Each caller on its own, in every schedule: it has acquired the
    lock as often as it has released it, and once more while it is inside
    the [with] block; and it has invoked the guarded operation at most as
    often as it has released the lock, a release that is not yet followed
    by its invocation being one after which the caller stands right before
    the operation. *)
Theorem caller_accounting (async : bool) (o : throttle_obj) (n : nat)
    (ls : list label) (σ : sys) (evs : list cevent) (i : nat) :
  run (init async o n) ls = Some (σ, evs) ->
  times i (acquired evs) = (times i (released evs) + inside σ i)%nat /\
  (times i (invoked evs) + at_func σ i <= times i (released evs))%nat.
Proof.
  intros H.
  destruct (run_inv ls _ _ _ (init_inv async o n) H) as [H1 Ho].
  pose proof (run_holder_inv ls _ _ _ (init_holder_inv async o n) H) as H2.
  split.
  - simpl in Ho. rewrite Ho, times_app. f_equal.
    unfold holder, inside. destruct (s_lock σ) as [h|] eqn:Hl.
    + rewrite times_one. destruct (Nat.eq_dec h i) as [->|Hne].
      * destruct (H2 i Hl) as (p & -> & ->). reflexivity.
      * destruct (s_pcs σ !! i) as [p|] eqn:Hp; [|reflexivity].
        destruct (in_guard p) eqn:Hg; [|reflexivity].
        pose proof (H1 i p Hp Hg). congruence.
    + destruct (s_pcs σ !! i) as [p|] eqn:Hp; [|reflexivity].
      destruct (in_guard p) eqn:Hg; [|reflexivity].
      pose proof (H1 i p Hp Hg). congruence.
  - pose proof (run_invoked i ls _ _ _ H) as Hi.
    assert (at_func (init async o n) i = 0%nat) as H0.
    { unfold at_func. simpl. destruct (replicate n Entry !! i) as [p|] eqn:Hp; [|reflexivity].
      apply lookup_replicate in Hp as [-> _]. reflexivity. }
    lia.
Qed.

End LockDiscipline.

(** ** The further properties at work *)

(** [fetch] decorated in a store that holds the throttle and the lock of
    [bump]. *)
Lemma decoration_is_quiet_witness :
  exists res s',
    Spec.decorator 1 1000 false Demo.fetch (Demo.s_bump false) = Some (res, s') /\
    trace s' = [] /\
    thrs s' !! 0 = Some (ThrottleCls, Demo.thr0 false) /\
    locks s' !! 0 = Some (RLock 0).
Proof.
  eexists _, _. split; [reflexivity|].
  destruct (decoration_is_quiet Spec.init Spec.init 1 1000 false Demo.fetch
              (Demo.s_bump false) _ _ eq_refl) as (_ & Htr & _ & Ht & Hl & _).
  split; [exact Htr|]. split; [apply Ht | apply Hl]; reflexivity.
Defined.

(** [limit = throttle(1, 1000, False)], then [limit(bump)] and
    [limit(boom)]. *)
Lemma decorator_reuse_witness :
  exists w1 s1,
    throttle Spec.init Spec.init 1 1000 false Demo.bump Demo.s0 = Some (Return w1, s1) /\
    exists w2 s2,
      throttle Spec.init Spec.init 1 1000 false Demo.boom s1 = Some (Return w2, s2) /\
      cl_thr w1 <> cl_thr w2 /\ cl_lock w1 <> cl_lock w2 /\
      thrs s2 !! cl_thr w2 = thrs s2 !! cl_thr w1.
Proof.
  eexists _, _. split; [reflexivity|].
  destruct (decorator_reuse Spec.init Spec.init 1 1000 false Demo.bump Demo.boom
              Demo.s0 _ _ eq_refl eq_refl)
    as (w2 & s2 & H2 & Ht & Hl & _ & Hsame & _).
  exists w2, s2. split; [exact H2|]. split; [exact Ht|]. split; [exact Hl | exact Hsame].
Defined.



Lemma caller_accounting_witness :
  exists σ evs,
    Concurrent.run (Concurrent.init false (Demo.thr0 false) 2) Demo.schedule = Some (σ, evs) /\
    Concurrent.times 1 (Concurrent.acquired evs)
      = (Concurrent.times 1 (Concurrent.released evs) + Concurrent.inside σ 1)%nat /\
    (Concurrent.times 0 (Concurrent.invoked evs) + Concurrent.at_func σ 0
       <= Concurrent.times 0 (Concurrent.released evs))%nat.
Proof.
  eexists _, _. split; [reflexivity|].
  split.
  - exact (proj1 (caller_accounting false (Demo.thr0 false) 2 Demo.schedule _ _ 1 eq_refl)).
  - exact (proj2 (caller_accounting false (Demo.thr0 false) 2 Demo.schedule _ _ 0 eq_refl)).
Defined.
